(** * cartographer/mapping/id.h : the identifier-indexed container [MapById]

    A shallow embedding of [NodeId], [SubmapId] and the sparse container
    [MapById<IdType, DataType>] with its [ConstIterator], followed by the
    properties of the append-gating flag, of the contract checks and of the
    iteration order.  The dense [NestedVectorsById] is not part of it.

    Conventions of the embedding:
    - a C++ [int] is a [Z], taken as 32 bits wide; the only arithmetic of
      the file, the [+ 1] of [Append], has the outcome [Undefined] beyond
      [INT_MAX] (signed overflow has no defined result in C++);
    - a [std::map<int, T>] is a [gmap Z T]; its in-order traversal is the
      key-sorted list of its bindings, and an iterator of the map is the
      suffix of that list which starts at the element it points to (the
      past-the-end iterator is the empty suffix);
    - a member function is a function from the container to an [outcome],
      which is either a normal return with the new container, a failed
      glog [CHECK] (the process is aborted), a [std::out_of_range] raised
      by [std::map::at] (an exception that a caller can catch), or
      undefined behaviour; the two abnormal exits carry the container as
      it was when control left the function. *)

From stdpp Require Import base gmap sorting list strings.

Local Open Scope Z_scope.

(** ** Identifiers *)

Record NodeId := MkNodeId { trajectory_id : Z; node_index : Z }.

(** [SubmapId] has the same first field name in the source; projections
    share one name space here, hence the prefix. *)
Record SubmapId := MkSubmapId { submap_trajectory_id : Z; submap_index : Z }.

Module Node.
(** [NodeId::operator==] *)
Definition eqb (a b : NodeId) : bool :=
  (trajectory_id a =? trajectory_id b) && (node_index a =? node_index b).
(** [NodeId::operator!=] *)
Definition neqb (a b : NodeId) : bool := negb (eqb a b).
(** [NodeId::operator<], the order of [std::tuple] *)
Definition ltb (a b : NodeId) : bool :=
  (trajectory_id a <? trajectory_id b)
  || ((trajectory_id a =? trajectory_id b) && (node_index a <? node_index b)).
End Node.

Module Submap.
Definition eqb (a b : SubmapId) : bool :=
  (submap_trajectory_id a =? submap_trajectory_id b)
  && (submap_index a =? submap_index b).
Definition neqb (a b : SubmapId) : bool := negb (eqb a b).
Definition ltb (a b : SubmapId) : bool :=
  (submap_trajectory_id a <? submap_trajectory_id b)
  || ((submap_trajectory_id a =? submap_trajectory_id b)
      && (submap_index a <? submap_index b)).
End Submap.

(** What the template [MapById] uses of its parameter [IdType]: the member
    [trajectory_id], the overloaded [GetIndex], and the brace
    initialisation [IdType{trajectory, index}]. *)
Class IdType (Id : Type) := {
  id_trajectory : Id → Z;
  GetIndex : Id → Z;
  make_id : Z → Z → Id;
  id_trajectory_make : ∀ t i, id_trajectory (make_id t i) = t;
  GetIndex_make : ∀ t i, GetIndex (make_id t i) = i;
  make_id_eta : ∀ x, make_id (id_trajectory x) (GetIndex x) = x
}.

#[export] Instance NodeId_IdType : IdType NodeId :=
  {| id_trajectory := trajectory_id; GetIndex := node_index;
     make_id := MkNodeId;
     id_trajectory_make := λ _ _, eq_refl;
     GetIndex_make := λ _ _, eq_refl;
     make_id_eta := λ x, match x with MkNodeId _ _ => eq_refl end |}.

#[export] Instance SubmapId_IdType : IdType SubmapId :=
  {| id_trajectory := submap_trajectory_id; GetIndex := submap_index;
     make_id := MkSubmapId;
     id_trajectory_make := λ _ _, eq_refl;
     GetIndex_make := λ _ _, eq_refl;
     make_id_eta := λ x, match x with MkSubmapId _ _ => eq_refl end |}.

(** The lexicographic order on (trajectory, index). *)
Definition id_lt `{IdType Id} (a b : Id) : Prop :=
  id_trajectory a < id_trajectory b
  ∨ (id_trajectory a = id_trajectory b ∧ GetIndex a < GetIndex b).

(** ** Machine integers *)

Definition INT_MAX : Z := 2147483647.

(** [a + 1] on [int]; [None] when the sum is not representable. *)
Definition int_succ (a : Z) : option Z :=
  if decide (a < INT_MAX) then Some (a + 1) else None.

(** ** [std::map<int, A>] *)

Section StdMap.
Context {A : Type}.

Definition key_le (x y : Z * A) : Prop := x.1 ≤ y.1.

#[local] Instance key_le_dec x y : Decision (key_le x y).
Proof. unfold key_le. apply _. Defined.

(** [begin() .. end()]: the bindings in ascending key order. *)
Definition items (m : gmap Z A) : list (Z * A) :=
  merge_sort key_le (map_to_list m).

(** [m.empty()] *)
Definition map_empty (m : gmap Z A) : bool :=
  match items m with [] => true | _ :: _ => false end.

(** [m.rbegin()]: the binding with the largest key. *)
Definition map_rbegin (m : gmap Z A) : option (Z * A) := last (items m).

(** The suffix of a traversal that starts at key [k]. *)
Fixpoint seek (k : Z) (l : list (Z * A)) : list (Z * A) :=
  match l with
  | [] => []
  | x :: l' => if decide (x.1 = k) then l else seek k l'
  end.

(** [m.find(k)] *)
Definition map_find (k : Z) (m : gmap Z A) : list (Z * A) :=
  seek k (items m).

(** [m.emplace(k, v)]: the key is bound only if it was free; the boolean
    is the [.second] of the returned pair. *)
Definition map_emplace (k : Z) (v : A) (m : gmap Z A) : gmap Z A * bool :=
  match m !! k with
  | Some _ => (m, false)
  | None => (<[k := v]> m, true)
  end.

Definition key_lt (x y : Z * A) : Prop := x.1 < y.1.

(** [k] is the largest key of [m]. *)
Definition largest_key (m : gmap Z A) (k : Z) : Prop :=
  is_Some (m !! k) ∧ ∀ k', is_Some (m !! k') → k' ≤ k.
End StdMap.

(** ** Outcomes *)

Inductive outcome (S A : Type) : Type :=
| Return (a : A) (s : S)
| CheckFailed (s : S)
| OutOfRange (s : S)
| Undefined.
Arguments Return {S A} a s.
Arguments CheckFailed {S A} s.
Arguments OutOfRange {S A} s.
Arguments Undefined {S A}.

Definition bind {S A B} (r : outcome S A) (k : A → S → outcome S B)
  : outcome S B :=
  match r with
  | Return a s => k a s
  | CheckFailed s => CheckFailed s
  | OutOfRange s => OutOfRange s
  | Undefined => Undefined
  end.

(** ** The container *)

Section MapById.
Context {Id : Type} `{IdType Id} {DataType : Type}.

(** [struct MapByIndex] *)
Record MapByIndex := MkMapByIndex {
  can_append_ : bool;
  data_ : gmap Z DataType
}.

(** A value-initialised [MapByIndex]. *)
Definition fresh : MapByIndex :=
  {| can_append_ := true; data_ := ∅ |}.

(** [class MapById]; its only member is [trajectories_]. *)
Record MapById := MkMapById { trajectories_ : gmap Z MapByIndex }.

Definition empty_map : MapById := {| trajectories_ := ∅ |}.

(** [trajectories_[t]]: the trajectory is created when it is missing. *)
Definition subscript (t : Z) (m : MapById) : MapByIndex * MapById :=
  match trajectories_ m !! t with
  | Some tr => (tr, m)
  | None => (fresh, {| trajectories_ := <[t := fresh]> (trajectories_ m) |})
  end.

(** Writing through the reference [auto& trajectory]. *)
Definition store (t : Z) (tr : MapByIndex) (m : MapById) : MapById :=
  {| trajectories_ := <[t := tr]> (trajectories_ m) |}.

(** [MapById::Append] *)
Definition Append (trajectory_id : Z) (data : DataType) (m : MapById)
  : outcome MapById Id :=
  if decide (trajectory_id < 0) then CheckFailed m
  else
    let '(trajectory, m1) := subscript trajectory_id m in
    if negb (can_append_ trajectory) then CheckFailed m1
    else
      let next :=
        if map_empty (data_ trajectory) then Some 0
        else match map_rbegin (data_ trajectory) with
             | Some (k, _) => int_succ k
             | None => None
             end in
      match next with
      | None => Undefined
      | Some index =>
          let d := (map_emplace index data (data_ trajectory)).1 in
          Return (make_id trajectory_id index)
            (store trajectory_id
               {| can_append_ := can_append_ trajectory; data_ := d |} m1)
      end.

(** [MapById::Insert] *)
Definition Insert (id : Id) (data : DataType) (m : MapById)
  : outcome MapById unit :=
  let '(trajectory, m1) := subscript (id_trajectory id) m in
  let '(d, inserted) := map_emplace (GetIndex id) data (data_ trajectory) in
  let m2 := store (id_trajectory id)
              {| can_append_ := false; data_ := d |} m1 in
  if inserted then Return tt m2 else CheckFailed m2.

(** [MapById::Trim] *)
Definition Trim (id : Id) (m : MapById) : outcome MapById unit :=
  match trajectories_ m !! id_trajectory id with
  | None => OutOfRange m
  | Some trajectory =>
      match map_find (GetIndex id) (data_ trajectory) with
      | [] => CheckFailed m
      | (k, _) :: next =>
          let can_append :=
            match next with
            | [] => false
            | _ :: _ => can_append_ trajectory
            end in
          Return tt
            (store (id_trajectory id)
               {| can_append_ := can_append;
                  data_ := delete k (data_ trajectory) |} m)
      end
  end.

(** [MapById::at] (both overloads) *)
Definition at_ (id : Id) (m : MapById) : outcome MapById DataType :=
  match trajectories_ m !! id_trajectory id with
  | None => OutOfRange m
  | Some trajectory =>
      match data_ trajectory !! GetIndex id with
      | None => OutOfRange m
      | Some v => Return v m
      end
  end.

(** *** Observations used in the statements *)

(** The entry stored at an identifier, if any. *)
Definition entry (m : MapById) (id : Id) : option DataType :=
  trajectories_ m !! id_trajectory id ≫= λ tr, data_ tr !! GetIndex id.

(** The flag of a trajectory, if the trajectory exists. *)
Definition flag (m : MapById) (t : Z) : option bool :=
  can_append_ <$> trajectories_ m !! t.

(** The flag an [Append] would find: a trajectory that does not exist
    yet is created with the flag set. *)
Definition appendable (m : MapById) (t : Z) : bool :=
  default true (flag m t).

(** The bindings of a trajectory (none for a missing trajectory). *)
Definition positions (m : MapById) (t : Z) : gmap Z DataType :=
  default ∅ (data_ <$> trajectories_ m !! t).

(** The position [Append] picks in a trajectory with bindings [ps]. *)
Definition next_position (ps : gmap Z DataType) (p : Z) : Prop :=
  (ps = ∅ ∧ p = 0) ∨ (∃ k, largest_key ps k ∧ k < INT_MAX ∧ p = k + 1).

(** The highest position of the trajectory cannot be incremented. *)
Definition saturated (ps : gmap Z DataType) : Prop :=
  ∃ k, largest_key ps k ∧ INT_MAX ≤ k.

(** The element [Trim] finds last in its trajectory. *)
Definition trailing (m : MapById) (id : Id) : Prop :=
  largest_key (positions m (id_trajectory id)) (GetIndex id).

(** The occupied positions are exactly [0 .. n-1]. *)
Definition run_from_0 (ps : gmap Z DataType) (n : Z) : Prop :=
  ∀ k, is_Some (ps !! k) ↔ 0 ≤ k < n.

(** The occupied positions lie in [0 .. n-1] and include [n-1]. *)
Definition topped (ps : gmap Z DataType) (n : Z) : Prop :=
  (∀ k, is_Some (ps !! k) → 0 ≤ k < n) ∧ (0 < n → is_Some (ps !! (n - 1))).

(** Some position below [n] is free. *)
Definition holed (ps : gmap Z DataType) (n : Z) : Prop :=
  ∃ k, 0 ≤ k < n ∧ ps !! k = None.

(** *** Sequences of mutating calls *)

Inductive call :=
| CallAppend (t : Z) (d : DataType)
| CallInsert (id : Id) (d : DataType)
| CallTrim (id : Id).

(** The trajectory a call works on. *)
Definition call_trajectory (c : call) : Z :=
  match c with
  | CallAppend t _ => t
  | CallInsert id _ | CallTrim id => id_trajectory id
  end.

(** One call; an [Append] reports the identifier it returned. *)
Definition perform (c : call) (m : MapById) : outcome MapById (option Id) :=
  match c with
  | CallAppend t d => bind (Append t d m) (λ id m', Return (Some id) m')
  | CallInsert id d => bind (Insert id d m) (λ _ m', Return None m')
  | CallTrim id => bind (Trim id m) (λ _ m', Return None m')
  end.

(** The calls in order, stopping at the first one that does not return. *)
Fixpoint run (cs : list call) (m : MapById)
  : outcome MapById (list (option Id)) :=
  match cs with
  | [] => Return [] m
  | c :: cs' =>
      bind (perform c m) (λ r m1,
        bind (run cs' m1) (λ rs m2, Return (r :: rs) m2))
  end.

(** The number of [Append]s to trajectory [t] among the calls. *)
Fixpoint appends_to (t : Z) (cs : list call) : Z :=
  match cs with
  | [] => 0
  | CallAppend t' _ :: cs' =>
      (if decide (t' = t) then 1 else 0) + appends_to t cs'
  | _ :: cs' => appends_to t cs'
  end.

(** The number of [Trim]s in trajectory [t] among the calls. *)
Fixpoint trims_of (t : Z) (cs : list call) : Z :=
  match cs with
  | [] => 0
  | CallTrim id :: cs' =>
      (if decide (id_trajectory id = t) then 1 else 0) + trims_of t cs'
  | _ :: cs' => trims_of t cs'
  end.

(** Along the run of [cs] from [m], trajectory [t] is touched only by
    [Append] and by [Trim] of an element that is not the trailing one at
    that moment. *)
Fixpoint append_built (t : Z) (cs : list call) (m : MapById) : Prop :=
  match cs with
  | [] => True
  | c :: cs' =>
      (call_trajectory c = t →
       match c with
       | CallAppend _ _ => True
       | CallInsert _ _ => False
       | CallTrim id => ¬ trailing m id
       end)
      ∧ match perform c m with
        | Return _ m' => append_built t cs' m'
        | _ => True
        end
  end.

(** The identifiers of [len] consecutive positions from [n] on. *)
Definition appended_ids (t n : Z) (len : nat) : list (option Id) :=
  (λ i : nat, Some (make_id t (n + Z.of_nat i))) <$> seq 0 len.

(** *** [MapById::ConstIterator] *)

Record IdDataReference := MkIdDataReference { id : Id; data : DataType }.

(** The two cursors.  [end_trajectory_] and [end_data_] are the empty
    suffixes, so they need no field. *)
Record ConstIterator := MkConstIterator {
  current_trajectory_ : list (Z * MapByIndex);
  current_data_ : list (Z * DataType)
}.

(** Equality of two iterators of one [std::map]: the same distance to
    the end. *)
Definition same_position {A B} (a : list A) (b : list B) : bool :=
  Nat.eqb (length a) (length b).

Definition at_end {A} (a : list A) : bool :=
  match a with [] => true | _ :: _ => false end.

(** The [while] loop of [AdvanceToValidDataIterator]; it recurses on the
    remaining trajectories. *)
Fixpoint advance_loop (trajs : list (Z * MapByIndex))
    (cur : list (Z * DataType)) : ConstIterator :=
  if at_end cur then
    match trajs with
    | [] => {| current_trajectory_ := []; current_data_ := cur |}
    | _ :: rest =>
        match rest with
        | [] => {| current_trajectory_ := []; current_data_ := cur |}
        | (_, tr) :: _ => advance_loop rest (items (data_ tr))
        end
    end
  else {| current_trajectory_ := trajs; current_data_ := cur |}.

(** [ConstIterator::AdvanceToValidDataIterator] *)
Definition AdvanceToValidDataIterator (it : ConstIterator)
  : outcome ConstIterator unit :=
  if at_end (current_trajectory_ it) then CheckFailed it
  else Return tt (advance_loop (current_trajectory_ it) (current_data_ it)).

(** The constructor [ConstIterator(map_by_id)] *)
Definition construct (m : MapById) : outcome ConstIterator unit :=
  let trajs := items (trajectories_ m) in
  match trajs with
  | [] => Return tt {| current_trajectory_ := []; current_data_ := [] |}
  | (_, tr) :: _ =>
      AdvanceToValidDataIterator
        {| current_trajectory_ := trajs; current_data_ := items (data_ tr) |}
  end.

(** [ConstIterator::EndIterator] *)
Definition EndIterator (m : MapById) : outcome ConstIterator unit :=
  bind (construct m) (λ _ it,
    Return tt {| current_trajectory_ := [];
                 current_data_ := current_data_ it |}).

(** [ConstIterator::operator*] *)
Definition deref (it : ConstIterator)
  : outcome ConstIterator IdDataReference :=
  match current_trajectory_ it with
  | [] => CheckFailed it
  | (t, _) :: _ =>
      match current_data_ it with
      | [] => Undefined
      | (k, v) :: _ => Return {| id := make_id t k; data := v |} it
      end
  end.

(** [ConstIterator::operator++] *)
Definition incr (it : ConstIterator) : outcome ConstIterator unit :=
  match current_trajectory_ it with
  | [] => CheckFailed it
  | _ :: _ =>
      match current_data_ it with
      | [] => Undefined
      | _ :: rest =>
          AdvanceToValidDataIterator
            {| current_trajectory_ := current_trajectory_ it;
               current_data_ := rest |}
      end
  end.

(** [ConstIterator::operator==] *)
Definition iter_eqb (a b : ConstIterator) : bool :=
  if at_end (current_trajectory_ a) || at_end (current_trajectory_ b)
  then same_position (current_trajectory_ a) (current_trajectory_ b)
  else same_position (current_trajectory_ a) (current_trajectory_ b)
       && same_position (current_data_ a) (current_data_ b).

(** [ConstIterator::operator!=] *)
Definition iter_neqb (a b : ConstIterator) : bool := negb (iter_eqb a b).

(** [MapById::begin] and [MapById::end] *)
Definition begin_ (m : MapById) : outcome ConstIterator unit := construct m.
Definition end_ (m : MapById) : outcome ConstIterator unit := EndIterator m.

(** [MapById::empty] *)
Definition empty_ (m : MapById) : outcome ConstIterator bool :=
  bind (begin_ m) (λ _ b, bind (end_ m) (λ _ e, Return (iter_eqb b e) b)).

(** The loop [for (it = first; it != last; ++it) out.push_back( *it )],
    with a bound on the number of rounds. *)
Fixpoint walk (fuel : nat) (it last : ConstIterator)
  : option (list IdDataReference) :=
  if iter_neqb it last then
    match fuel with
    | O => None
    | S fuel' =>
        match deref it with
        | Return r _ =>
            match incr it with
            | Return _ it' => cons r <$> walk fuel' it' last
            | _ => None
            end
        | _ => None
        end
    end
  else Some [].

(** The entries of a trajectory as the iterator reports them. *)
Definition refs (t : Z) (l : list (Z * DataType)) : list IdDataReference :=
  (λ kv, {| id := make_id t kv.1; data := kv.2 |}) <$> l.

(** All entries: trajectories in ascending order, and the positions of
    each in ascending order. *)
Definition listing (m : MapById) : list IdDataReference :=
  items (trajectories_ m) ≫= λ p, refs p.1 (items (data_ p.2)).

(** The order in which entries are reported. *)
Definition ref_lt (a b : IdDataReference) : Prop := id_lt (id a) (id b).

(** What an iterator has yet to visit. *)
Definition remaining (it : ConstIterator) : list IdDataReference :=
  match current_trajectory_ it with
  | [] => []
  | (t, _) :: rest =>
      refs t (current_data_ it) ++ (rest ≫= λ p, refs p.1 (items (data_ p.2)))
  end.

(** An iterator is either at the end or at an entry. *)
Definition positioned (it : ConstIterator) : Prop :=
  current_trajectory_ it = [] ∨ current_data_ it ≠ [].

(** The entries of the trajectories in [trajs]. *)
Definition entries_of (trajs : list (Z * MapByIndex))
  : list IdDataReference :=
  trajs ≫= λ p, refs p.1 (items (data_ p.2)).

(** An iterator of the container [m]: its cursors are positions in the
    traversals of [m], and unless it is at the end it is at an entry. *)
Definition iterator_of (m : MapById) (it : ConstIterator) : Prop :=
  current_trajectory_ it `suffix_of` items (trajectories_ m)
  ∧ match current_trajectory_ it with
    | [] => True
    | (_, tr) :: _ =>
        current_data_ it ≠ []
        ∧ current_data_ it `suffix_of` items (data_ tr)
    end.

(** The number of entries of the container. *)
Definition entry_count (m : MapById) : nat :=
  sum_list ((λ p, size (data_ p.2)) <$> items (trajectories_ m)).

(** Iterating from [begin()] to [end()]. *)
Definition iterate (m : MapById) : option (list IdDataReference) :=
  match begin_ m, end_ m with
  | Return _ b, Return _ e => walk (entry_count m) b e
  | _, _ => None
  end.
End MapById.

Arguments MapByIndex : clear implicits.
Arguments MapById : clear implicits.
Arguments call : clear implicits.
Arguments IdDataReference : clear implicits.
Arguments ConstIterator : clear implicits.

(** ** Scenarios *)

(** Calls on a container of strings indexed by [NodeId], and the container
    they leave when run on the fresh one. *)
Definition node_calls := list (call NodeId string).

Definition after (cs : node_calls) : MapById string :=
  match run cs empty_map with
  | Return _ m | CheckFailed m | OutOfRange m => m
  | Undefined => empty_map
  end.

(** Two appends, then a trim of the first element. *)
Definition gap_calls : node_calls :=
  [CallAppend 0 "a"; CallAppend 0 "b"; CallTrim (MkNodeId 0 0)].

(** Two appends, then a trim of the last element. *)
Definition cut_calls : node_calls :=
  [CallAppend 0 "a"; CallAppend 0 "b"; CallTrim (MkNodeId 0 1)].

(** Trajectories 0 and 2 hold entries; trajectory 1 was emptied by a trim. *)
Definition sparse_calls : node_calls :=
  [CallAppend 0 "a"; CallAppend 0 "b"; CallAppend 1 "gone";
   CallAppend 2 "c"; CallTrim (MkNodeId 1 0)].


(** The values of an [int]. *)
Definition INT_MIN : Z := -2147483648.
Definition is_int (z : Z) : Prop := INT_MIN ≤ z ≤ INT_MAX.

(** ** [NestedVectorsById] *)

(** The conversion of an [int] to [size_t] (64 bits). *)
Definition size_of_int (z : Z) : Z := z mod 2 ^ 64.

(** [static_cast<int>] of a [size_t]. *)
Definition int_of_size (n : Z) : Z := (n + 2 ^ 31) mod 2 ^ 32 - 2 ^ 31.

(** No [std::vector] holds more than [PTRDIFF_MAX] elements; a [resize]
    beyond that raises [std::length_error].  Smaller requests are taken to
    be served: running out of memory is not part of the model. *)
Definition VECTOR_MAX_SIZE : Z := 2 ^ 63 - 1.

(** The outcomes of the dense container: a return, the
    [std::out_of_range] of [std::vector::at], the [std::length_error] of
    [std::vector::resize], or undefined behaviour. *)
Inductive vec_outcome (S A : Type) : Type :=
| VReturn (a : A) (s : S)
| VOutOfRange (s : S)
| VLengthError (s : S)
| VUndefined.
Arguments VReturn {S A} a s.
Arguments VOutOfRange {S A} s.
Arguments VLengthError {S A} s.
Arguments VUndefined {S A}.

Section StdVector.
Context {A : Type}.

(** [v.size()] *)
Definition vec_size (v : list A) : Z := Z.of_nat (length v).

(** The element at a [size_t] index, if the index is in range; this is
    the test of [v.at(n)] and the precondition of [v[n]]. *)
Definition vec_get (v : list A) (n : Z) : option A :=
  if decide (0 ≤ n < vec_size v) then v !! Z.to_nat n else None.

(** [v[n] = x] for an index in range. *)
Definition vec_set (v : list A) (n : Z) (x : A) : list A :=
  <[Z.to_nat n := x]> v.

(** [v.resize(n)] with value-initialised new elements [x]. *)
Definition vec_resize (x : A) (n : Z) (v : list A) : list A :=
  take (Z.to_nat n) v ++ replicate (Z.to_nat n - length v) x.
End StdVector.

Section NestedVectorsById.
Context {Id : Type} `{IdType Id} {ValueType : Type}.

(** [class NestedVectorsById]; its member [data_] has the name of the
    member of [MapByIndex], hence the prefix. *)
Record NestedVectorsById :=
  MkNestedVectorsById { nested_data_ : list (list ValueType) }.

Definition empty_nested : NestedVectorsById := {| nested_data_ := [] |}.

(** [NestedVectorsById::Append] *)
Definition NestedAppend (trajectory_id : Z) (value : ValueType)
    (c : NestedVectorsById) : vec_outcome NestedVectorsById Id :=
  match int_succ trajectory_id with
  | None => VUndefined
  | Some next =>
      let n := Z.max (vec_size (nested_data_ c)) (size_of_int next) in
      if decide (VECTOR_MAX_SIZE < n) then VLengthError c
      else
        let d := vec_resize [] n (nested_data_ c) in
        match vec_get d (size_of_int trajectory_id) with
        | None => VUndefined
        | Some row =>
            VReturn (make_id trajectory_id (int_of_size (vec_size row)))
              {| nested_data_ :=
                   vec_set d (size_of_int trajectory_id) (row ++ [value]) |}
        end
  end.

(** [NestedVectorsById::at] (both overloads) *)
Definition nested_at (id : Id) (c : NestedVectorsById)
  : vec_outcome NestedVectorsById ValueType :=
  match vec_get (nested_data_ c) (size_of_int (id_trajectory id)) with
  | None => VOutOfRange c
  | Some row =>
      match vec_get row (size_of_int (GetIndex id)) with
      | None => VOutOfRange c
      | Some v => VReturn v c
      end
  end.

(** [NestedVectorsById::num_trajectories] *)
Definition num_trajectories (c : NestedVectorsById) : Z :=
  int_of_size (vec_size (nested_data_ c)).

(** [NestedVectorsById::num_indices] *)
Definition num_indices (trajectory_id : Z) (c : NestedVectorsById)
  : vec_outcome NestedVectorsById Z :=
  match vec_get (nested_data_ c) (size_of_int trajectory_id) with
  | None => VOutOfRange c
  | Some row => VReturn (int_of_size (vec_size row)) c
  end.

(** [NestedVectorsById::data] *)
Definition nested_data (c : NestedVectorsById) : list (list ValueType) :=
  nested_data_ c.

(** The values of trajectory [t], none for a trajectory that does not
    exist or a number that is no [int] index. *)
Definition nested_row (c : NestedVectorsById) (t : Z) : list ValueType :=
  default [] (vec_get (nested_data_ c) t).

(** The value stored at an identifier, if any. *)
Definition nested_entry (c : NestedVectorsById) (id : Id)
  : option ValueType :=
  vec_get (nested_row c (id_trajectory id)) (GetIndex id).

(** No trajectory of the container is longer than an [int] can count, and
    the trajectories themselves can be counted by an [int]. *)
Definition int_sized (c : NestedVectorsById) : Prop :=
  vec_size (nested_data_ c) ≤ INT_MAX
  ∧ ∀ t, vec_size (nested_row c t) ≤ INT_MAX.

(** The appends in order, stopping at the first one that does not
    return. *)
Fixpoint nested_run (xs : list (Z * ValueType)) (c : NestedVectorsById)
  : vec_outcome NestedVectorsById (list Id) :=
  match xs with
  | [] => VReturn [] c
  | (t, v) :: xs' =>
      match NestedAppend t v c with
      | VReturn i c1 =>
          match nested_run xs' c1 with
          | VReturn ids c2 => VReturn (i :: ids) c2
          | r => r
          end
      | VOutOfRange c1 => VOutOfRange c1
      | VLengthError c1 => VLengthError c1
      | VUndefined => VUndefined
      end
  end.
End NestedVectorsById.

Arguments NestedVectorsById : clear implicits.

(** The identifiers that the appends to trajectory [t] returned, in call
    order, read off the results of a run. *)
Definition returned_to {Id} `{IdType Id} (t : Z) (rs : list (option Id))
  : list Id :=
  filter (λ i, id_trajectory i = t) (omap (λ r, r) rs).

(** The two containers hold the same values at the same places. *)
Definition agree {ValueType} (c : NestedVectorsById ValueType)
    (m : MapById ValueType) : Prop :=
  ∀ t i, positions m t !! i = vec_get (nested_row c t) i.

(** The calls of [MapById] that correspond to appends. *)
Definition as_calls {Id ValueType} (xs : list (Z * ValueType))
  : list (call Id ValueType) :=
  (λ x, CallAppend x.1 x.2) <$> xs.

(** A trajectory created and then emptied. *)
Definition emptied_calls : node_calls :=
  [CallAppend 1 "gone"; CallTrim (MkNodeId 1 0)].

(** Appends to two trajectories with an inner trim and an insert in
    between. *)
Definition mixed_calls : node_calls :=
  [CallAppend 0 "a"; CallAppend 3 "x"; CallAppend 0 "b";
   CallTrim (MkNodeId 0 0); CallInsert (MkNodeId 3 7) "y"; CallAppend 0 "c"].

(** Appends to the dense container of strings indexed by [NodeId], and the
    container they leave when run on the fresh one. *)
Definition dense_after (xs : list (Z * string)) : NestedVectorsById string :=
  match nested_run (Id:=NodeId) xs empty_nested with
  | VReturn _ c | VOutOfRange c | VLengthError c => c
  | VUndefined => empty_nested
  end.

Definition dense_calls : list (Z * string) :=
  [(2, "a"); (0, "b"); (2, "c")].

(** * Properties *)

(** ** The comparison operators of the identifiers *)

Lemma Node_eqb_eq (a b : NodeId) : Node.eqb a b = true ↔ a = b.
Proof.
  destruct a as [ta ia], b as [tb ib]. unfold Node.eqb. simpl.
  rewrite andb_true_iff, !Z.eqb_eq. split; [intros [-> ->] | intros [= -> ->]]; done.
Qed.

Lemma Node_ltb_lt (a b : NodeId) : Node.ltb a b = true ↔ id_lt a b.
Proof.
  unfold Node.ltb, id_lt. simpl.
  rewrite orb_true_iff, andb_true_iff, !Z.ltb_lt, Z.eqb_eq. done.
Qed.

Lemma Submap_eqb_eq (a b : SubmapId) : Submap.eqb a b = true ↔ a = b.
Proof.
  destruct a as [ta ia], b as [tb ib]. unfold Submap.eqb. simpl.
  rewrite andb_true_iff, !Z.eqb_eq. split; [intros [-> ->] | intros [= -> ->]]; done.
Qed.

Lemma Submap_ltb_lt (a b : SubmapId) : Submap.ltb a b = true ↔ id_lt a b.
Proof.
  unfold Submap.ltb, id_lt. simpl.
  rewrite orb_true_iff, andb_true_iff, !Z.ltb_lt, Z.eqb_eq. done.
Qed.

(** ** The traversal of a [std::map] *)

Section StdMapFacts.
Context {A : Type}.
Implicit Types (m : gmap Z A) (l : list (Z * A)) (k : Z).

#[local] Instance key_le_trans : Transitive (@key_le A).
Proof. intros x y z. unfold key_le. lia. Qed.

#[local] Instance key_le_total : Total (@key_le A).
Proof. intros x y. unfold key_le. lia. Qed.

Lemma items_perm m : items m ≡ₚ map_to_list m.
Proof. apply merge_sort_Permutation. Qed.

Lemma elem_of_items m k v : (k, v) ∈ items m ↔ m !! k = Some v.
Proof. by rewrite items_perm, elem_of_map_to_list. Qed.

Lemma items_NoDup_keys m : NoDup (items m).*1.
Proof.
  rewrite (fmap_Permutation fst _ _ (items_perm m)).
  apply NoDup_fst_map_to_list.
Qed.

Lemma length_items m : length (items m) = size m.
Proof. by rewrite (Permutation_length (items_perm m)), length_map_to_list. Qed.

Lemma sorted_strict l :
  StronglySorted key_le l → NoDup l.*1 → StronglySorted key_lt l.
Proof.
  induction 1 as [|x l Hl IH Hx]; intros Hnd; [constructor|].
  apply NoDup_cons in Hnd as [Hnot Hnd].
  constructor; [by apply IH|].
  apply Forall_forall. intros y Hy.
  rewrite Forall_forall in Hx. specialize (Hx y Hy).
  unfold key_le in Hx. unfold key_lt.
  assert (x.1 ≠ y.1); [|lia].
  intros Heq. apply Hnot. rewrite Heq. by apply list_elem_of_fmap_2.
Qed.

Lemma items_sorted m : StronglySorted key_lt (items m).
Proof.
  apply sorted_strict; [|apply items_NoDup_keys].
  apply StronglySorted_merge_sort; apply _.
Qed.

Lemma items_nil m : items m = [] ↔ m = ∅.
Proof.
  rewrite <-map_to_list_empty_iff. split; intros Hnil.
  - apply Permutation_nil_r. by rewrite <-items_perm, Hnil.
  - apply Permutation_nil_r. by rewrite items_perm, Hnil.
Qed.

Lemma map_empty_true m : map_empty m = true ↔ m = ∅.
Proof.
  rewrite <-items_nil. unfold map_empty. by destruct (items m).
Qed.

(** In a strictly sorted list the last element has the largest key. *)
Lemma sorted_last_max l x y :
  StronglySorted key_lt l → last l = Some x → y ∈ l → y.1 ≤ x.1.
Proof.
  intros Hs Hlast Hy. apply last_Some in Hlast as [l' ->].
  apply elem_of_app in Hy as [Hy | Hy].
  - pose proof (StronglySorted_app_1_elem_of _ _ _ _ _ Hs Hy
      (list_elem_of_here x [])) as Hlt.
    unfold key_lt in Hlt. lia.
  - apply list_elem_of_singleton in Hy as ->. lia.
Qed.

Lemma map_rbegin_largest m k v :
  map_rbegin m = Some (k, v) ↔ m !! k = Some v ∧ largest_key m k.
Proof.
  unfold map_rbegin, largest_key. split.
  - intros Hlast.
    assert (m !! k = Some v) as Hk.
    { apply elem_of_items. by apply last_Some_elem_of. }
    split; [done|]. split; [by eexists|].
    intros k' [v' Hk'].
    apply elem_of_items in Hk'.
    apply (sorted_last_max _ _ _ (items_sorted m) Hlast Hk').
  - intros (Hk & _ & Hmax).
    destruct (last (items m)) as [[k1 v1]|] eqn:Hlast.
    + assert (m !! k1 = Some v1) as Hk1.
      { apply elem_of_items. by apply last_Some_elem_of. }
      apply elem_of_items in Hk.
      pose proof (sorted_last_max _ _ _ (items_sorted m) Hlast Hk) as Hle.
      pose proof (Hmax k1 (ex_intro _ v1 Hk1)) as Hge. simpl in *.
      assert (k1 = k) as -> by lia.
      apply elem_of_items in Hk. congruence.
    + apply last_None, items_nil in Hlast. subst m.
      by rewrite lookup_empty in Hk.
Qed.

Lemma map_rbegin_None m : map_rbegin m = None ↔ m = ∅.
Proof. unfold map_rbegin. by rewrite last_None, items_nil. Qed.

Lemma seek_nil k l : seek k l = [] ↔ k ∉ l.*1.
Proof.
  induction l as [|x l IH]; simpl.
  - split; [intros _; apply not_elem_of_nil | done].
  - rewrite not_elem_of_cons. case_decide as Hx.
    + split; [done | intros [Hne _]; by destruct Hne].
    + rewrite IH. split; [intros ?; split; [congruence | done] | by intros [_ ?]].
Qed.

Lemma seek_cons k l x rest :
  seek k l = x :: rest → x.1 = k ∧ ∃ before, l = before ++ x :: rest.
Proof.
  induction l as [|y l IH]; simpl; [done|].
  case_decide as Hy.
  - intros [= -> ->]. split; [done|]. by exists [].
  - intros Hs. destruct (IH Hs) as [Hk [before ->]].
    split; [done|]. by exists (y :: before).
Qed.

Lemma map_find_nil m k : map_find k m = [] ↔ m !! k = None.
Proof.
  unfold map_find. rewrite seek_nil. split.
  - intros Hnot. destruct (m !! k) as [v|] eqn:Hk; [|done].
    destruct Hnot. apply elem_of_items in Hk.
    by apply (list_elem_of_fmap_2 fst) in Hk.
  - intros Hk Hin. apply list_elem_of_fmap in Hin as [[k' v] [-> Hin]].
    apply elem_of_items in Hin. simpl in *. congruence.
Qed.

(** [find] of a bound key returns the position of its binding, and the
    following position is the end exactly for the largest key. *)
Lemma map_find_cons m k k' v rest :
  map_find k m = (k', v) :: rest →
  k' = k ∧ m !! k = Some v ∧ (rest = [] ↔ largest_key m k).
Proof.
  unfold map_find. intros Hs.
  destruct (seek_cons _ _ _ _ Hs) as [Hk [before Hitems]].
  simpl in Hk. subst k'.
  assert (m !! k = Some v) as Hlook.
  { apply elem_of_items. rewrite Hitems.
    apply elem_of_app. right. apply list_elem_of_here. }
  split; [done|]. split; [done|]. split.
  - intros ->. eapply map_rbegin_largest.
    unfold map_rbegin. rewrite Hitems. apply last_snoc.
  - intros [_ Hmax]. destruct rest as [|[k1 v1] rest]; [done|].
    pose proof (items_sorted m) as Hsort. rewrite Hitems in Hsort.
    apply StronglySorted_app_1_r in Hsort.
    apply StronglySorted_inv in Hsort as [_ Hall].
    apply Forall_cons in Hall as [Hlt _]. unfold key_lt in Hlt.
    assert (is_Some (m !! k1)) as Hk1.
    { exists v1. apply elem_of_items. rewrite Hitems.
      apply elem_of_app. right. apply list_elem_of_further, list_elem_of_here. }
    specialize (Hmax _ Hk1). simpl in *. lia.
Qed.
End StdMapFacts.

(** How the largest key moves under insertion and deletion. *)
Section LargestKey.
Context {A : Type}.
Implicit Types (m : gmap Z A) (k : Z).

Lemma largest_key_unique m k1 k2 :
  largest_key m k1 → largest_key m k2 → k1 = k2.
Proof. intros [H1 M1] [H2 M2]. specialize (M1 _ H2). specialize (M2 _ H1). lia. Qed.

Lemma largest_key_empty k : ¬ largest_key (∅ : gmap Z A) k.
Proof. intros [[v Hv] _]. by rewrite lookup_empty in Hv. Qed.

Lemma largest_key_exists m : m ≠ ∅ → ∃ k, largest_key m k.
Proof.
  intros Hne. destruct (map_rbegin m) as [[k v]|] eqn:Hr.
  - exists k. by apply map_rbegin_largest in Hr as [_ ?].
  - by apply map_rbegin_None in Hr.
Qed.

Lemma largest_key_insert_above m p v :
  (∀ k', is_Some (m !! k') → k' ≤ p) → largest_key (<[p := v]> m) p.
Proof.
  intros Hmax. split; [rewrite lookup_insert_eq; by eexists|].
  intros k'. rewrite lookup_insert. case_decide; [lia | auto].
Qed.

Lemma largest_key_delete_other m k i :
  largest_key m k → i ≠ k → largest_key (delete i m) k.
Proof.
  intros [Hk Hmax] Hne. split; [by rewrite lookup_delete_ne|].
  intros k' Hk'. apply Hmax.
  destruct (decide (i = k')) as [->|]; [by rewrite lookup_delete_eq in Hk'; destruct Hk'|].
  by rewrite lookup_delete_ne in Hk'.
Qed.

#[export] Instance largest_key_dec m k : Decision (largest_key m k).
Proof.
  destruct (map_rbegin m) as [[k1 v1]|] eqn:Hr.
  - apply map_rbegin_largest in Hr as [_ Hl].
    destruct (decide (k1 = k)) as [->|Hne]; [by left|].
    right. intros Hk. apply Hne. eapply largest_key_unique; eauto.
  - right. apply map_rbegin_None in Hr as ->. apply largest_key_empty.
Defined.
End LargestKey.

(** ** The member functions, case by case *)

Section Operations.
Context {Id : Type} `{IdType Id} {DataType : Type}.
Implicit Types (m : MapById DataType) (t k p : Z) (d v : DataType) (id : Id).

Lemma flag_store t tr m t' :
  flag (store t tr m) t' =
  if decide (t = t') then Some (can_append_ tr) else flag m t'.
Proof.
  unfold flag, store; simpl. rewrite lookup_insert.
  by case_decide.
Qed.

Lemma positions_store t tr m t' :
  positions (store t tr m) t' =
  if decide (t = t') then data_ tr else positions m t'.
Proof.
  unfold positions, store; simpl. rewrite lookup_insert.
  by case_decide.
Qed.

Lemma entry_positions m id :
  entry m id = positions m (id_trajectory id) !! GetIndex id.
Proof.
  unfold entry, positions.
  destruct (trajectories_ m !! id_trajectory id); simpl; [done|].
  by rewrite lookup_empty.
Qed.

Lemma entry_store t tr m id :
  entry (store t tr m) id =
  if decide (t = id_trajectory id) then data_ tr !! GetIndex id
  else entry m id.
Proof.
  rewrite !entry_positions, positions_store. by case_decide.
Qed.

Lemma appendable_store t tr m t' :
  appendable (store t tr m) t' =
  if decide (t = t') then can_append_ tr else appendable m t'.
Proof. unfold appendable. rewrite flag_store. by case_decide. Qed.

Lemma appendable_false m t : appendable m t = false ↔ flag m t = Some false.
Proof.
  unfold appendable. destruct (flag m t) as [[]|]; simpl; split; congruence.
Qed.

Lemma store_subscript t tr m :
  store t tr (subscript t m).2 = store t tr m.
Proof.
  unfold subscript, store.
  destruct (trajectories_ m !! t); simpl; [done|].
  by rewrite insert_insert_eq.
Qed.

Lemma subscript_fst t m :
  can_append_ (subscript t m).1 = appendable m t
  ∧ data_ (subscript t m).1 = positions m t.
Proof.
  unfold subscript, appendable, flag, positions.
  by destruct (trajectories_ m !! t).
Qed.

(** *** [Append] *)

Lemma Append_negative t d m : t < 0 → Append t d m = CheckFailed m.
Proof. intros Ht. unfold Append. by rewrite decide_True. Qed.

Lemma Append_locked t d m :
  flag m t = Some false → Append t d m = CheckFailed m.
Proof.
  intros Hf. unfold Append. case_decide; [done|].
  unfold flag in Hf. unfold subscript.
  destruct (trajectories_ m !! t) as [tr|]; simplify_eq/=.
  by rewrite Hf.
Qed.

Lemma Append_saturated t d m :
  0 ≤ t → appendable m t = true → saturated (positions m t) →
  Append t d m = Undefined.
Proof.
  intros Ht Hap (k & Hk & Hbig). unfold Append.
  rewrite decide_False by lia.
  destruct (subscript t m) as [tr m1] eqn:Hsub.
  destruct (subscript_fst t m) as [Hc Hd]. rewrite Hsub in Hc, Hd.
  simpl in Hc, Hd. rewrite Hc, Hap, Hd. simpl.
  destruct (map_empty (positions m t)) eqn:He.
  { apply map_empty_true in He. rewrite He in Hk.
    by apply largest_key_empty in Hk. }
  destruct (map_rbegin (positions m t)) as [[k1 v1]|] eqn:Hr; [|done].
  apply map_rbegin_largest in Hr as [_ Hl].
  rewrite (largest_key_unique _ _ _ Hl Hk).
  unfold int_succ. by rewrite decide_False by lia.
Qed.

Lemma Append_next t d m p :
  0 ≤ t → appendable m t = true → next_position (positions m t) p →
  Append t d m
  = Return (make_id t p)
      (store t {| can_append_ := true;
                  data_ := <[p := d]> (positions m t) |} m)
  ∧ positions m t !! p = None.
Proof.
  intros Ht Hap Hnext.
  assert (positions m t !! p = None) as Hfree.
  { destruct Hnext as [[-> _] | (k & [_ Hmax] & _ & ->)];
      [apply lookup_empty|].
    destruct (positions m t !! (k + 1)) eqn:Hk; [|done].
    specialize (Hmax (k + 1) (ex_intro _ _ Hk)). lia. }
  split; [|done]. unfold Append.
  rewrite decide_False by lia.
  destruct (subscript t m) as [tr m1] eqn:Hsub.
  destruct (subscript_fst t m) as [Hc Hd]. rewrite Hsub in Hc, Hd.
  simpl in Hc, Hd. rewrite Hc, Hap, Hd. simpl.
  assert (m1 = (subscript t m).2) as -> by by rewrite Hsub.
  assert ((if map_empty (positions m t) then Some 0
           else match map_rbegin (positions m t) with
                | Some (k, _) => int_succ k
                | None => None
                end) = Some p) as ->.
  { destruct Hnext as [[He ->] | (k & Hk & Hlt & ->)].
    - apply map_empty_true in He. by rewrite He.
    - destruct (map_empty (positions m t)) eqn:He.
      { apply map_empty_true in He. rewrite He in Hk.
        by apply largest_key_empty in Hk. }
      destruct (map_rbegin (positions m t)) as [[k1 v1]|] eqn:Hr.
      + apply map_rbegin_largest in Hr as [_ Hl].
        rewrite (largest_key_unique _ _ _ Hl Hk).
        unfold int_succ. by rewrite decide_True by lia.
      + apply map_rbegin_None in Hr. rewrite Hr in Hk.
        by apply largest_key_empty in Hk. }
  unfold map_emplace. rewrite Hfree. simpl.
  by rewrite store_subscript.
Qed.

(** Every trajectory either has a next position or is saturated. *)
Lemma next_or_saturated (ps : gmap Z DataType) :
  (∃ p, next_position ps p) ∨ saturated ps.
Proof.
  destruct (decide (ps = ∅)) as [->|Hne].
  { left. exists 0. by left. }
  destruct (largest_key_exists _ Hne) as [k Hk].
  destruct (decide (k < INT_MAX)).
  - left. exists (k + 1). right. by exists k.
  - right. exists k. split; [done | lia].
Qed.

(** What a returning [Append] did. *)
Lemma Append_Return t d m id m' :
  Append t d m = Return id m' →
  0 ≤ t ∧ appendable m t = true
  ∧ ∃ p, next_position (positions m t) p ∧ id = make_id t p
         ∧ positions m t !! p = None
         ∧ m' = store t {| can_append_ := true;
                           data_ := <[p := d]> (positions m t) |} m.
Proof.
  intros Hret.
  destruct (decide (t < 0)) as [Hneg|Hpos].
  { by rewrite Append_negative in Hret. }
  destruct (appendable m t) eqn:Hap; cycle 1.
  { apply appendable_false in Hap. by rewrite Append_locked in Hret. }
  destruct (next_or_saturated (positions m t)) as [[p Hp] | Hsat]; cycle 1.
  { rewrite Append_saturated in Hret by (done || lia). done. }
  destruct (Append_next t d m p) as [Heq Hfree]; [lia | done | done |].
  rewrite Heq in Hret. simplify_eq.
  split; [lia|]. split; [done|]. by exists p.
Qed.

(** *** [Insert] *)

Lemma Insert_fresh id d m :
  entry m id = None →
  Insert id d m
  = Return tt
      (store (id_trajectory id)
         {| can_append_ := false;
            data_ := <[GetIndex id := d]> (positions m (id_trajectory id)) |}
         m).
Proof.
  rewrite entry_positions. intros Hfree. unfold Insert.
  destruct (subscript (id_trajectory id) m) as [tr m1] eqn:Hsub.
  destruct (subscript_fst (id_trajectory id) m) as [_ Hd].
  rewrite Hsub in Hd. simpl in Hd.
  assert (m1 = (subscript (id_trajectory id) m).2) as -> by by rewrite Hsub.
  unfold map_emplace. rewrite Hd, Hfree.
  by rewrite store_subscript.
Qed.

Lemma Insert_duplicate id d m :
  is_Some (entry m id) →
  Insert id d m
  = CheckFailed
      (store (id_trajectory id)
         {| can_append_ := false;
            data_ := positions m (id_trajectory id) |} m).
Proof.
  rewrite entry_positions. intros [v Hv]. unfold Insert.
  destruct (subscript (id_trajectory id) m) as [tr m1] eqn:Hsub.
  destruct (subscript_fst (id_trajectory id) m) as [_ Hd].
  rewrite Hsub in Hd. simpl in Hd.
  assert (m1 = (subscript (id_trajectory id) m).2) as -> by by rewrite Hsub.
  unfold map_emplace. rewrite Hd, Hv.
  by rewrite store_subscript.
Qed.

(** *** [Trim] *)

Lemma Trim_no_trajectory id m :
  trajectories_ m !! id_trajectory id = None → Trim id m = OutOfRange m.
Proof. intros Hno. unfold Trim. by rewrite Hno. Qed.

Lemma Trim_no_entry id m :
  is_Some (trajectories_ m !! id_trajectory id) → entry m id = None →
  Trim id m = CheckFailed m.
Proof.
  intros [tr Htr] Hno. unfold Trim. rewrite Htr.
  unfold entry in Hno. rewrite Htr in Hno. simpl in Hno.
  apply map_find_nil in Hno. by rewrite Hno.
Qed.

Lemma Trim_entry id m v :
  entry m id = Some v →
  Trim id m
  = Return tt
      (store (id_trajectory id)
         {| can_append_ :=
              if decide (largest_key (positions m (id_trajectory id))
                           (GetIndex id))
              then false else appendable m (id_trajectory id);
            data_ := delete (GetIndex id) (positions m (id_trajectory id)) |}
         m).
Proof.
  intros Hv. unfold Trim, entry, positions, appendable, flag in *.
  destruct (trajectories_ m !! id_trajectory id) as [tr|]; [|done].
  simpl in *.
  destruct (map_find (GetIndex id) (data_ tr)) as [|[k v'] rest] eqn:Hfind.
  { apply map_find_nil in Hfind. congruence. }
  apply map_find_cons in Hfind as (-> & _ & Hlast).
  do 3 f_equal. destruct rest.
  - rewrite decide_True; [done|]. by apply Hlast.
  - rewrite decide_False; [done|]. intros Hl. by apply Hlast in Hl.
Qed.

(** *** [at] *)

Lemma at_entry id m v : entry m id = Some v → at_ id m = Return v m.
Proof.
  unfold entry, at_.
  destruct (trajectories_ m !! id_trajectory id); simpl; [|done].
  by intros ->.
Qed.

Lemma at_missing id m : entry m id = None → at_ id m = OutOfRange m.
Proof.
  unfold entry, at_.
  destruct (trajectories_ m !! id_trajectory id); simpl; [|done].
  by intros ->.
Qed.

Lemma at_Return id m v m' : at_ id m = Return v m' → entry m id = Some v.
Proof.
  destruct (entry m id) as [v'|] eqn:He.
  - rewrite (at_entry _ _ _ He). congruence.
  - by rewrite (at_missing _ _ He).
Qed.

(** Two identifiers with the same fields are the same identifier. *)
Lemma id_ext id id' :
  id_trajectory id = id_trajectory id' → GetIndex id = GetIndex id' →
  id = id'.
Proof.
  intros Ht Hi. rewrite <-(make_id_eta id), <-(make_id_eta id').
  by rewrite Ht, Hi.
Qed.
End Operations.

(** ** Runs of calls and the append gate *)

Section Runs.
Context {Id : Type} `{IdType Id} {DataType : Type}.
Implicit Types (m : MapById DataType) (t k p : Z) (d v : DataType) (id : Id).
Implicit Types (c : call Id DataType) (cs : list (call Id DataType)).

Lemma Insert_Return id d m u m' :
  Insert id d m = Return u m' →
  entry m id = None
  ∧ m' = store (id_trajectory id)
           {| can_append_ := false;
              data_ := <[GetIndex id := d]> (positions m (id_trajectory id)) |}
           m.
Proof.
  destruct (entry m id) as [v|] eqn:He.
  - rewrite Insert_duplicate by by eexists. done.
  - rewrite Insert_fresh by done. intros [= <-]. done.
Qed.

Lemma Trim_Return id m u m' :
  Trim id m = Return u m' →
  is_Some (entry m id)
  ∧ m' = store (id_trajectory id)
           {| can_append_ :=
                if decide (largest_key (positions m (id_trajectory id))
                             (GetIndex id))
                then false else appendable m (id_trajectory id);
              data_ := delete (GetIndex id)
                         (positions m (id_trajectory id)) |} m.
Proof.
  destruct (entry m id) as [v|] eqn:He.
  - rewrite (Trim_entry _ _ _ He). intros [= <-]. split; [by eexists | done].
  - destruct (trajectories_ m !! id_trajectory id) as [tr|] eqn:Htr.
    + rewrite Trim_no_entry; [done | by eexists | done].
    + by rewrite Trim_no_trajectory.
Qed.

Lemma perform_Return c m r m' :
  perform c m = Return r m' →
  match c with
  | CallAppend t d => ∃ id, Append t d m = Return id m' ∧ r = Some id
  | CallInsert id d => Insert id d m = Return tt m' ∧ r = None
  | CallTrim id => Trim id m = Return tt m' ∧ r = None
  end.
Proof.
  destruct c as [t d | id d | id]; simpl.
  - destruct (Append t d m) as [a s| | |]; simpl; [|done..].
    intros [= <- <-]. by exists a.
  - destruct (Insert id d m) as [[] s| | |]; simpl; [|done..].
    by intros [= <- <-].
  - destruct (Trim id m) as [[] s| | |]; simpl; [|done..].
    by intros [= <- <-].
Qed.

Lemma run_cons_Return c cs m rs m' :
  run (c :: cs) m = Return rs m' →
  ∃ r m1 rs', perform c m = Return r m1 ∧ run cs m1 = Return rs' m'
              ∧ rs = r :: rs'.
Proof.
  simpl. destruct (perform c m) as [r m1| | |]; simpl; [|done..].
  destruct (run cs m1) as [rs' m2| | |] eqn:Hrun; simpl; [|done..].
  intros [= <- <-]. by exists r, m1, rs'.
Qed.

(** A call that returns leaves a cleared flag cleared. *)
Lemma perform_flag_false c m r m' t :
  flag m t = Some false → perform c m = Return r m' →
  flag m' t = Some false.
Proof.
  intros Hf Hp. apply perform_Return in Hp.
  pose proof (proj2 (appendable_false m t) Hf) as Hap.
  destruct c as [t0 d | id d | id].
  - destruct Hp as (id & Hp & _).
    apply Append_Return in Hp as (_ & Hap0 & p & _ & _ & _ & ->).
    rewrite flag_store. case_decide; [subst; congruence | done].
  - destruct Hp as [Hp _]. apply Insert_Return in Hp as [_ ->].
    rewrite flag_store. by case_decide.
  - destruct Hp as [Hp _]. apply Trim_Return in Hp as [_ ->].
    rewrite flag_store. case_decide as Ht; [|done]. subst t.
    simpl. rewrite Hap. by case_decide.
Qed.

Lemma run_flag_false cs m rs m' t :
  flag m t = Some false → run cs m = Return rs m' →
  flag m' t = Some false.
Proof.
  revert m rs. induction cs as [|c cs IH]; intros m rs Hf Hrun.
  - simpl in Hrun. by simplify_eq.
  - apply run_cons_Return in Hrun as (r & m1 & rs' & Hp & Hrun & _).
    eapply IH; [|done]. by eapply perform_flag_false.
Qed.

Lemma run_appendable cs m rs m' t :
  run cs m = Return rs m' → appendable m' t = true → appendable m t = true.
Proof.
  intros Hrun Hap. destruct (appendable m t) eqn:Hm; [done|].
  apply appendable_false in Hm.
  pose proof (run_flag_false _ _ _ _ _ Hm Hrun) as Hf.
  apply appendable_false in Hf. congruence.
Qed.

(** Once the flag is cleared, [Append] fails its check after any further
    returning calls. *)
Lemma Append_after_locked cs m rs m' t d :
  flag m t = Some false → run cs m = Return rs m' →
  Append t d m' = CheckFailed m'.
Proof.
  intros Hf Hrun. apply Append_locked. by eapply run_flag_false.
Qed.
End Runs.

(** ** What a set flag says about the history of a trajectory *)

Section History.
Context {Id : Type} `{IdType Id} {DataType : Type}.
Implicit Types (m : MapById DataType) (t k p n : Z) (d v : DataType) (id : Id).
Implicit Types (c : call Id DataType) (cs : list (call Id DataType)).
Implicit Types (ps : gmap Z DataType).

Lemma topped_largest ps n : topped ps n → 0 < n → largest_key ps (n - 1).
Proof.
  intros [Hin Htop] Hn. split; [by apply Htop|].
  intros k' Hk'. specialize (Hin _ Hk'). lia.
Qed.

Lemma topped_next ps n p : topped ps n → 0 ≤ n → next_position ps p → p = n.
Proof.
  intros Htop Hn [[-> ->] | (k & Hk & _ & ->)].
  - destruct (decide (0 < n)) as [Hpos|]; [|lia].
    destruct Htop as [_ Htop]. destruct (Htop Hpos) as [v Hv].
    by rewrite lookup_empty in Hv.
  - destruct Hk as [Hk Hmax].
    pose proof (proj1 Htop _ Hk) as Hrange.
    assert (0 < n) as Hpos by lia.
    specialize (Hmax _ (proj2 Htop Hpos)). lia.
Qed.

Lemma topped_insert ps n d : topped ps n → 0 ≤ n → topped (<[n := d]> ps) (n + 1).
Proof.
  intros [Hin _] Hn. split.
  - intros k. rewrite lookup_insert. case_decide; [lia|].
    intros Hk. specialize (Hin _ Hk). lia.
  - intros _. replace (n + 1 - 1) with n by lia.
    rewrite lookup_insert_eq. by eexists.
Qed.

Lemma topped_delete ps n k :
  topped ps n → ¬ largest_key ps k → topped (delete k ps) n.
Proof.
  intros Htop Hnot. split.
  - intros k'. destruct (decide (k = k')) as [->|Hne].
    + rewrite lookup_delete_eq. by intros [? ?].
    + rewrite lookup_delete_ne by done. apply Htop.
  - intros Hn. rewrite lookup_delete_ne; [by apply Htop|].
    intros ->. apply Hnot. by apply topped_largest.
Qed.

Lemma run_from_0_insert ps n d :
  run_from_0 ps n → 0 ≤ n → run_from_0 (<[n := d]> ps) (n + 1).
Proof.
  intros Hrun Hn k. rewrite lookup_insert. case_decide.
  - subst. split; [lia | by eexists].
  - rewrite (Hrun k). lia.
Qed.

(** One returning call, seen from a trajectory whose flag is still set
    afterwards. *)
Lemma perform_history c m r m' t n :
  perform c m = Return r m' → appendable m' t = true →
  0 ≤ n → topped (positions m t) n →
  (call_trajectory c = t →
   match c with
   | CallAppend _ _ => True
   | CallInsert _ _ => False
   | CallTrim id => ¬ trailing m id
   end)
  ∧ topped (positions m' t) (n + appends_to t [c])
  ∧ (run_from_0 (positions m t) n → trims_of t [c] = 0 →
     run_from_0 (positions m' t) (n + appends_to t [c])).
Proof.
  intros Hp Hap Hn Htop. apply perform_Return in Hp.
  destruct c as [t0 d | id d | id]; simpl.
  - destruct Hp as (id & Hp & _).
    apply Append_Return in Hp as (_ & _ & p & Hnext & _ & _ & ->).
    split; [done|]. rewrite positions_store.
    case_decide as Ht; simpl.
    + subst t0. rewrite (topped_next _ _ _ Htop Hn Hnext).
      replace (n + (1 + 0)) with (n + 1) by lia.
      split; [by apply topped_insert|].
      intros Hrun _. by apply run_from_0_insert.
    + replace (n + (0 + 0)) with n by lia. done.
  - destruct Hp as [Hp _]. apply Insert_Return in Hp as [_ ->].
    rewrite appendable_store in Hap. rewrite positions_store.
    case_decide as Ht; [done|].
    replace (n + 0) with n by lia. done.
  - destruct Hp as [Hp _]. apply Trim_Return in Hp as [_ ->].
    rewrite appendable_store in Hap. rewrite positions_store.
    case_decide as Ht; simpl in *.
    + subst t. case_decide as Hl; [done|].
      split; [done|].
      replace (n + 0) with n by lia.
      split; [by apply topped_delete | lia].
    + replace (n + 0) with n by lia. done.
Qed.

Lemma appends_to_nonneg t cs : 0 ≤ appends_to t cs.
Proof.
  induction cs as [|[t0 d | id d | id] cs IH]; simpl; [lia| |done..].
  case_decide; lia.
Qed.

Lemma trims_of_nonneg t cs : 0 ≤ trims_of t cs.
Proof.
  induction cs as [|[t0 d | id d | id] cs IH]; simpl; [lia|done..|].
  case_decide; lia.
Qed.

Lemma appends_to_cons t c cs :
  appends_to t (c :: cs) = appends_to t [c] + appends_to t cs.
Proof. destruct c; simpl; lia. Qed.

Lemma trims_of_cons t c cs :
  trims_of t (c :: cs) = trims_of t [c] + trims_of t cs.
Proof. destruct c; simpl; lia. Qed.

(** The same along a whole run, from any container whose trajectory [t]
    is topped at [n]. *)
Lemma run_history cs : ∀ m rs m' t n,
  run cs m = Return rs m' → appendable m' t = true →
  0 ≤ n → topped (positions m t) n →
  append_built t cs m
  ∧ topped (positions m' t) (n + appends_to t cs)
  ∧ (run_from_0 (positions m t) n → trims_of t cs = 0 →
     run_from_0 (positions m' t) (n + appends_to t cs)).
Proof.
  induction cs as [|c cs IH]; intros m rs m' t n Hrun Hap Hn Htop.
  - simpl in Hrun. simplify_eq. simpl.
    replace (n + 0) with n by lia. done.
  - apply run_cons_Return in Hrun as (r & m1 & rs' & Hp & Hrun & _).
    pose proof (run_appendable _ _ _ _ _ Hrun Hap) as Hap1.
    destruct (perform_history _ _ _ _ _ _ Hp Hap1 Hn Htop)
      as (Hhead & Htop1 & Hfull1).
    pose proof (appends_to_nonneg t [c]) as Hc.
    destruct (IH m1 rs' m' t (n + appends_to t [c]) Hrun Hap) as
      (Hbuilt & Htop' & Hfull'); [lia | done |].
    rewrite appends_to_cons, trims_of_cons, Z.add_assoc.
    split; [|split; [done|]].
    + simpl. rewrite Hp. done.
    + intros Hrun0 Htr.
      pose proof (trims_of_nonneg t [c]). pose proof (trims_of_nonneg t cs).
      apply Hfull'; [apply Hfull1; [done | lia] | lia].
Qed.

(** A position that a trim freed stays free while the flag is set: one
    returning call, seen from a trajectory whose flag is still set
    afterwards. *)
Lemma perform_holed c m r m' t n :
  perform c m = Return r m' → appendable m' t = true →
  0 ≤ n → topped (positions m t) n →
  holed (positions m t) n ∨ 0 < trims_of t [c] →
  holed (positions m' t) (n + appends_to t [c]).
Proof.
  intros Hp Hap Hn Htop Hor. apply perform_Return in Hp.
  destruct c as [t0 d | id d | id]; simpl in *.
  - destruct Hp as (id & Hp & _).
    apply Append_Return in Hp as (_ & _ & p & Hnext & _ & _ & ->).
    destruct Hor as [(k & Hk & Hfree) | ?]; [|lia].
    rewrite positions_store. destruct (decide (t0 = t)) as [->|Hne]; simpl.
    + pose proof (topped_next _ _ _ Htop Hn Hnext) as ->.
      exists k. split; [lia|]. by rewrite lookup_insert_ne by lia.
    + exists k. split; [lia | done].
  - destruct Hp as [Hp _]. apply Insert_Return in Hp as [_ ->].
    rewrite appendable_store in Hap. rewrite positions_store.
    destruct (decide (id_trajectory id = t)) as [Ht|Hne]; [done|].
    destruct Hor as [(k & Hk & Hfree) | ?]; [|lia].
    exists k. split; [lia | done].
  - destruct Hp as [Hp _]. apply Trim_Return in Hp as [[v Hv] ->].
    rewrite appendable_store in Hap. rewrite positions_store.
    destruct (decide (id_trajectory id = t)) as [Ht|Hne]; simpl in *.
    + subst t. rewrite entry_positions in Hv.
      pose proof (proj1 Htop _ (ex_intro _ v Hv)) as Hrange.
      exists (GetIndex id). split; [lia|]. apply lookup_delete_eq.
    + destruct Hor as [(k & Hk & Hfree) | ?]; [|lia].
      exists k. split; [lia | done].
Qed.

(** The same along a whole run. *)
Lemma run_holed cs : ∀ m rs m' t n,
  run cs m = Return rs m' → appendable m' t = true →
  0 ≤ n → topped (positions m t) n →
  holed (positions m t) n ∨ 0 < trims_of t cs →
  holed (positions m' t) (n + appends_to t cs).
Proof.
  induction cs as [|c cs IH]; intros m rs m' t n Hrun Hap Hn Htop Hor.
  - simpl in Hrun. simplify_eq. simpl in *.
    replace (n + 0) with n by lia. destruct Hor; [done | lia].
  - apply run_cons_Return in Hrun as (r & m1 & rs' & Hp & Hrun & _).
    pose proof (run_appendable _ _ _ _ _ Hrun Hap) as Hap1.
    destruct (perform_history _ _ _ _ _ _ Hp Hap1 Hn Htop)
      as (_ & Htop1 & _).
    pose proof (appends_to_nonneg t [c]) as Hc.
    pose proof (trims_of_nonneg t [c]) as Htc.
    rewrite appends_to_cons, Z.add_assoc.
    rewrite trims_of_cons in Hor.
    apply (IH m1 rs' m' t _ Hrun Hap); [lia | done |].
    destruct (decide (0 < trims_of t [c])) as [Hfirst | Hfirst].
    + left. by apply (perform_holed _ _ _ _ _ _ Hp Hap1 Hn Htop); right.
    + destruct Hor as [Hhole | Hlater]; [|right; lia].
      left. by apply (perform_holed _ _ _ _ _ _ Hp Hap1 Hn Htop); left.
Qed.

(** A trajectory that is topped at [n] and has a free position below [n]
    is no run from 0. *)
Lemma holed_no_run (ps : gmap Z DataType) n n' :
  topped ps n → holed ps n → ¬ run_from_0 ps n'.
Proof.
  intros [_ Htop] (k & Hk & Hfree) Hrun.
  assert (¬ (0 ≤ k < n')) as Hout.
  { intros Hin. apply Hrun in Hin as [v Hv]. congruence. }
  assert (0 < n) as Hn by lia.
  apply Htop, Hrun in Hn. lia.
Qed.

Lemma topped_empty_map t : topped (positions (empty_map (DataType:=DataType)) t) 0.
Proof.
  unfold positions, empty_map; simpl. rewrite lookup_empty; simpl.
  split; [|lia]. intros k [v Hv]. by rewrite lookup_empty in Hv.
Qed.

Lemma run_from_0_empty_map t :
  run_from_0 (positions (empty_map (DataType:=DataType)) t) 0.
Proof.
  unfold positions, empty_map; simpl. rewrite lookup_empty; simpl.
  intros k. rewrite lookup_empty. split; [by intros [? ?] | lia].
Qed.
End History.

(** ** Iteration *)

Section Iteration.
Context {Id : Type} `{IdType Id} {DataType : Type}.
Implicit Types (m : MapById DataType) (t k : Z) (d v : DataType) (i : Id).
Implicit Types (it : ConstIterator DataType).
Implicit Types (trajs : list (Z * MapByIndex DataType)).

Lemma advance_loop_spec trajs : ∀ cur,
  trajs ≠ [] →
  positioned (advance_loop trajs cur)
  ∧ remaining (Id:=Id) (advance_loop trajs cur)
    = remaining {| current_trajectory_ := trajs; current_data_ := cur |}.
Proof.
  induction trajs as [|[t tr] rest IH]; intros cur Hne; [done|].
  destruct cur as [|x cur]; simpl.
  - destruct rest as [|[t' tr'] rest'].
    + split; [by left | done].
    + destruct (IH (items (data_ tr'))) as [Hpos Hrem]; [done|].
      split; [done|]. by rewrite Hrem.
  - split; [by right | done].
Qed.

Lemma construct_spec m :
  ∃ it, construct m = Return tt it ∧ positioned it
        ∧ remaining (Id:=Id) it = listing m.
Proof.
  unfold construct, listing.
  destruct (items (trajectories_ m)) as [|[t tr] rest] eqn:Hitems.
  - eexists. split; [done|]. split; [by left | done].
  - unfold AdvanceToValidDataIterator. cbn [current_trajectory_ at_end current_data_].
    eexists. split; [done|].
    destruct (advance_loop_spec ((t, tr) :: rest) (items (data_ tr)))
      as [Hpos Hrem]; [done|].
    split; [done|]. by rewrite Hrem.
Qed.

Lemma EndIterator_spec m :
  ∃ e, EndIterator m = Return tt e ∧ current_trajectory_ e = [].
Proof.
  unfold EndIterator.
  destruct (construct_spec m) as (it & -> & _). simpl. by eexists.
Qed.

Lemma iter_neqb_end it e :
  current_trajectory_ e = [] →
  iter_neqb it e = negb (at_end (current_trajectory_ it)).
Proof.
  intros He. unfold iter_neqb, iter_eqb. rewrite He. simpl.
  rewrite orb_true_r. unfold same_position.
  by destruct (current_trajectory_ it).
Qed.

(** The loop visits what remains, given as many rounds as entries. *)
Lemma walk_spec fuel : ∀ it e,
  current_trajectory_ e = [] → positioned it →
  (length (remaining (Id:=Id) it) ≤ fuel)%nat →
  walk fuel it e = Some (remaining it).
Proof.
  induction fuel as [|fuel IH]; intros it e He Hpos Hlen.
  - destruct it as [[|[t tr] rest] cur]; simpl.
    + rewrite iter_neqb_end by done. done.
    + destruct Hpos as [Hpos | Hpos]; [done|]. simpl in Hpos.
      destruct cur; [done|]. unfold remaining in Hlen. simpl in Hlen. lia.
  - destruct it as [[|[t tr] rest] cur].
    + simpl. rewrite iter_neqb_end by done. done.
    + destruct Hpos as [Hpos | Hpos]; [done|]. simpl in Hpos.
      destruct cur as [|[k v] cur]; [done|].
      cbn [walk]. rewrite iter_neqb_end by done.
      unfold deref, incr, AdvanceToValidDataIterator.
      cbn [current_trajectory_ current_data_ at_end negb].
      destruct (advance_loop_spec ((t, tr) :: rest) cur) as [Hpos' Hrem];
        [done|].
      rewrite (IH _ e He Hpos').
      * by rewrite Hrem.
      * rewrite Hrem. unfold remaining in *. simpl in *. lia.
Qed.

Lemma length_refs t (l : list (Z * DataType)) :
  length (refs (Id:=Id) t l) = length l.
Proof. unfold refs. by rewrite length_fmap. Qed.

Lemma entry_count_listing m : entry_count m = length (listing (Id:=Id) m).
Proof.
  unfold entry_count, listing.
  induction (items (trajectories_ m)) as [|[t tr] l IH]; [done|].
  rewrite fmap_cons, bind_cons, length_app, length_refs, length_items.
  simpl. by rewrite IH.
Qed.

Lemma iterate_listing m : iterate m = Some (listing (Id:=Id) m).
Proof.
  unfold iterate, begin_, end_.
  destruct (construct_spec m) as (b & -> & Hpos & Hrem).
  destruct (EndIterator_spec m) as (e & -> & He).
  rewrite <-Hrem. apply walk_spec; [done..|].
  by rewrite Hrem, entry_count_listing.
Qed.

Lemma elem_of_refs t (l : list (Z * DataType)) (x : IdDataReference Id DataType) :
  x ∈ refs t l ↔ ∃ k v, x = {| id := make_id t k; data := v |} ∧ (k, v) ∈ l.
Proof.
  unfold refs. rewrite list_elem_of_fmap. split.
  - intros ([k v] & -> & Hin). by exists k, v.
  - intros (k & v & -> & Hin). by exists (k, v).
Qed.

Lemma elem_of_listing m i d :
  {| id := i; data := d |} ∈ listing m ↔ entry m i = Some d.
Proof.
  unfold listing, entry. rewrite list_elem_of_bind. split.
  - intros ([t tr] & Hin & Htr). simpl in Hin.
    apply elem_of_items in Htr.
    apply elem_of_refs in Hin as (k & v & [= -> ->] & Hkv).
    apply elem_of_items in Hkv.
    rewrite id_trajectory_make, GetIndex_make, Htr. done.
  - destruct (trajectories_ m !! id_trajectory i) as [tr|] eqn:Htr; [|done].
    simpl. intros Hd. exists (id_trajectory i, tr). split.
    + simpl. apply elem_of_refs. exists (GetIndex i), d.
      split; [by rewrite make_id_eta | by apply elem_of_items].
    + by apply elem_of_items.
Qed.

Lemma refs_sorted t (l : list (Z * DataType)) :
  StronglySorted key_lt l → StronglySorted ref_lt (refs t l).
Proof.
  induction 1 as [|x l Hl IH Hx]; [constructor|].
  unfold refs. rewrite fmap_cons. constructor; [done|].
  apply Forall_fmap, Forall_forall. intros y Hy.
  rewrite Forall_forall in Hx. specialize (Hx y Hy).
  right. simpl. by rewrite !id_trajectory_make, !GetIndex_make.
Qed.

Lemma bind_refs_sorted trajs :
  StronglySorted key_lt trajs →
  StronglySorted ref_lt (trajs ≫= λ p, refs p.1 (items (data_ p.2))).
Proof.
  induction 1 as [|[t tr] l Hl IH Hx]; [constructor|].
  rewrite bind_cons. apply StronglySorted_app_2; [|by apply refs_sorted, items_sorted | done].
  intros x1 x2 Hx1 Hx2. simpl in Hx1.
  apply elem_of_refs in Hx1 as (k1 & v1 & -> & _).
  apply list_elem_of_bind in Hx2 as ([t' tr'] & Hx2 & Hin).
  apply elem_of_refs in Hx2 as (k2 & v2 & -> & _).
  rewrite Forall_forall in Hx. specialize (Hx _ Hin).
  left. simpl. by rewrite !id_trajectory_make.
Qed.

Lemma listing_sorted m : StronglySorted ref_lt (listing m).
Proof. apply bind_refs_sorted, items_sorted. Qed.

Lemma id_lt_irrefl i : ¬ id_lt i i.
Proof. unfold id_lt. lia. Qed.

Lemma id_lt_asym i j : id_lt i j → id_lt j i → False.
Proof. unfold id_lt. lia. Qed.

Lemma sorted_ids_NoDup (l : list Id) : StronglySorted id_lt l → NoDup l.
Proof.
  induction 1 as [|x l Hl IH Hx]; [constructor|].
  constructor; [|done]. intros Hin.
  rewrite Forall_forall in Hx. by apply (id_lt_irrefl x), Hx.
Qed.

Lemma listing_ids_sorted m : StronglySorted id_lt (id <$> listing m).
Proof.
  apply (StronglySorted_fmap id ref_lt id_lt); [|apply listing_sorted].
  by intros a b.
Qed.

(** Two ascending lists of identifiers with the same members are equal. *)
Lemma sorted_ids_unique (l1 l2 : list Id) :
  StronglySorted id_lt l1 → StronglySorted id_lt l2 →
  (∀ i, i ∈ l1 ↔ i ∈ l2) → l1 = l2.
Proof.
  intros H1 H2 Hmem. apply (StronglySorted_unique_strong id_lt); [|done..|].
  - intros x1 x2 _ _ Ha Hb. destruct (id_lt_asym _ _ Ha Hb).
  - apply NoDup_Permutation; [by apply sorted_ids_NoDup..|done].
Qed.

Lemma elem_of_listing_ids m i : i ∈ id <$> listing m ↔ is_Some (entry m i).
Proof.
  rewrite list_elem_of_fmap. split.
  - intros ([i' d] & -> & Hin). apply elem_of_listing in Hin. by eexists.
  - intros [d Hd]. exists {| id := i; data := d |}.
    split; [done | by apply elem_of_listing].
Qed.
End Iteration.

(** * The append gate *)

(** C1, as stated, fails: after [Append], [Append] and a [Trim] of position
    0 the flag of trajectory 0 is still set, the trajectory was built by
    appends only and its trailing element was never trimmed, but its only
    occupied position is 1, which is not a run starting at 0. *)
Lemma can_append_gap_counterexample :
  ∃ rs m, run gap_calls empty_map = Return rs m
          ∧ flag m 0 = Some true
          ∧ append_built 0 gap_calls empty_map
          ∧ ¬ ∃ n, run_from_0 (positions m 0) n.
Proof.
  eexists _, _. split; [vm_compute; reflexivity|].
  split; [vm_compute; reflexivity|]. split.
  - cbn [append_built gap_calls call_trajectory].
    repeat split; try done.
    intros _ [_ Hmax].
    assert (is_Some (positions (after [CallAppend 0 "a"; CallAppend 0 "b"]
                        : MapById string) 0 !! 1)) as H1
      by (vm_compute; by eexists).
    specialize (Hmax 1 H1). simpl in Hmax. lia.
  - intros [n Hn].
    assert (0 ≤ 1 < n) as Hrange by (apply Hn; vm_compute; by eexists).
    assert (0 ≤ 0 < n) as H0 by lia.
    apply Hn in H0 as [v Hv]. vm_compute in Hv. discriminate.
Qed.

(** C1 (amended): from the fresh container, in the state reached by any
    sequence of returning [Append], [Insert] and [Trim] calls, a trajectory
    whose flag is set (or which does not exist yet) was touched only by
    appends and by trims of elements other than the trailing one; its
    occupied positions lie in [0 .. n-1] and include [n-1], where [n] counts
    the appends to it; and they form a contiguous run starting at 0 if and
    only if nothing was trimmed from it, the run then being [0 .. n-1]. *)
Theorem can_append_history {Id} `{IdType Id} {DataType}
    (cs : list (call Id DataType)) rs (m : MapById DataType) (t : Z) :
  run cs empty_map = Return rs m →
  appendable m t = true →
  append_built t cs empty_map
  ∧ (∀ k, is_Some (positions m t !! k) → 0 ≤ k < appends_to t cs)
  ∧ (0 < appends_to t cs → trailing m (make_id t (appends_to t cs - 1)))
  ∧ (trims_of t cs = 0 ↔ run_from_0 (positions m t) (appends_to t cs))
  ∧ (trims_of t cs = 0 ↔ ∃ n, run_from_0 (positions m t) n).
Proof.
  intros Hrun Hap.
  destruct (run_history cs empty_map rs m t 0 Hrun Hap)
    as (Hbuilt & Htop & Hfull); [lia | apply topped_empty_map |].
  rewrite Z.add_0_l in Htop, Hfull.
  assert (trims_of t cs = 0 → run_from_0 (positions m t) (appends_to t cs))
    as Hdense.
  { intros Htr. apply Hfull; [apply run_from_0_empty_map | done]. }
  assert (∀ n, trims_of t cs ≠ 0 → ¬ run_from_0 (positions m t) n) as Hgap.
  { intros n Htr. apply (holed_no_run _ (appends_to t cs)); [done|].
    pose proof (trims_of_nonneg t cs) as Hnn.
    pose proof (run_holed cs empty_map rs m t 0 Hrun Hap) as Hholed.
    rewrite Z.add_0_l in Hholed.
    apply Hholed; [lia | apply topped_empty_map | right; lia]. }
  split; [done|]. split; [apply Htop|]. split; [|split].
  - intros Hn. unfold trailing.
    rewrite id_trajectory_make, GetIndex_make. by apply topped_largest.
  - split; [done|]. intros Hrun0.
    destruct (decide (trims_of t cs = 0)) as [|Hne]; [done|].
    by destruct (Hgap (appends_to t cs) Hne).
  - split; [intros Htr; eexists; by apply Hdense|]. intros [n Hrun0].
    destruct (decide (trims_of t cs = 0)) as [|Hne]; [done|].
    by destruct (Hgap n Hne).
Qed.

Lemma can_append_history_witness :
  appendable (after gap_calls) 0 = true
  ∧ append_built 0 gap_calls empty_map
  ∧ trailing (after gap_calls) (MkNodeId 0 1)
  ∧ ¬ ∃ n, run_from_0 (positions (after gap_calls) 0) n.
Proof.
  assert (run gap_calls empty_map
          = Return [Some (MkNodeId 0 0); Some (MkNodeId 0 1); None]
              (after gap_calls)) as Hrun by (vm_compute; reflexivity).
  assert (appendable (after gap_calls) 0 = true) as Hap
    by (vm_compute; reflexivity).
  destruct (can_append_history gap_calls _ _ 0 Hrun Hap)
    as (Hbuilt & _ & Hlast & _ & Hrun0).
  split; [exact Hap|]. split; [exact Hbuilt|]. split.
  - apply Hlast. vm_compute. reflexivity.
  - intros Hex. apply Hrun0 in Hex. vm_compute in Hex. discriminate.
Defined.

(** C2: the flag of a trajectory goes one way only.  From any container in
    which the flag of trajectory [t] is cleared, every sequence of
    returning [Append], [Insert] and [Trim] calls ends in a container in
    which it is still cleared. *)
Theorem can_append_one_way {Id} `{IdType Id} {DataType}
    (cs : list (call Id DataType)) (m : MapById DataType) rs m' (t : Z) :
  flag m t = Some false →
  run cs m = Return rs m' →
  flag m' t = Some false.
Proof.
  revert m rs. induction cs as [|c cs IH]; intros m rs Hcleared Hrun.
  - simpl in Hrun. by simplify_eq.
  - apply run_cons_Return in Hrun as (r & m1 & rs' & Hstep & Hrest & _).
    apply (IH m1 rs'); [|exact Hrest]. clear IH Hrest.
    apply perform_Return in Hstep.
    pose proof (proj2 (appendable_false m t) Hcleared) as Hlocked.
    destruct c as [t0 d | id d | id].
    + destruct Hstep as (id & Happ & _).
      apply Append_Return in Happ as (_ & Hap0 & p & _ & _ & _ & ->).
      rewrite flag_store. case_decide; [subst; congruence | done].
    + destruct Hstep as [Hins _]. apply Insert_Return in Hins as [_ ->].
      rewrite flag_store. by case_decide.
    + destruct Hstep as [Htrim _]. apply Trim_Return in Htrim as [_ ->].
      rewrite flag_store. case_decide as Ht; [|done]. subst t.
      simpl. rewrite Hlocked. by case_decide.
Qed.

Lemma can_append_one_way_witness :
  flag (after cut_calls) 0 = Some false
  ∧ flag (after (cut_calls ++ [CallInsert (MkNodeId 0 7) "c";
                               CallTrim (MkNodeId 0 7);
                               CallAppend 1 "d"])) 0 = Some false.
Proof.
  assert (flag (after cut_calls) 0 = Some false) as Hf
    by (vm_compute; reflexivity).
  split; [exact Hf|].
  apply (can_append_one_way
           [CallInsert (MkNodeId 0 7) "c"; CallTrim (MkNodeId 0 7);
            CallAppend 1 "d"]
           (after cut_calls) [None; None; Some (MkNodeId 1 0)] _ 0 Hf).
  vm_compute. reflexivity.
Defined.

(** * Contract checks *)

(** C3: the code departs from the claim.  [Append] checks its trajectory
    id, but [Insert] does not: with the identifier (-1, 0) on the fresh
    container it returns, and the container then holds a trajectory -1
    with the entry and a cleared flag. *)
Theorem Insert_negative_trajectory_returns :
  Insert (MkNodeId (-1) 0) "x" empty_map
  = Return tt
      {| trajectories_ :=
           {[ -1 := {| can_append_ := false; data_ := {[ 0 := "x" ]} |} ]} |}
  ∧ Append (Id:=NodeId) (-1) "x" empty_map = CheckFailed empty_map.
Proof. split; vm_compute; reflexivity. Qed.

Section Frames.
Context {Id : Type} `{IdType Id} {DataType : Type}.
Implicit Types (m : MapById DataType) (t k p n : Z) (d v : DataType) (id : Id).

(** A trajectory that holds an entry exists, so its flag can be read. *)
Lemma flag_of_entry m id v :
  entry m id = Some v →
  flag m (id_trajectory id) = Some (appendable m (id_trajectory id)).
Proof.
  unfold entry, appendable, flag.
  by destruct (trajectories_ m !! id_trajectory id).
Qed.

(** Rewriting one trajectory leaves the entries it keeps where they were. *)
Lemma entry_store_other t tr m id' :
  (id_trajectory id' = t →
   data_ tr !! GetIndex id' = positions m t !! GetIndex id') →
  entry (store t tr m) id' = entry m id'.
Proof.
  intros Hsame. rewrite entry_store. case_decide as Ht; [|done].
  rewrite entry_positions, <-Ht. apply Hsame. done.
Qed.

Lemma entry_store_insert_other t b p d m id' :
  id' ≠ make_id t p →
  entry (store t {| can_append_ := b; data_ := <[p := d]> (positions m t) |} m)
    id' = entry m id'.
Proof.
  intros Hne. apply entry_store_other. intros Ht. simpl.
  apply lookup_insert_ne. intros ->. apply Hne.
  by rewrite <-Ht, make_id_eta.
Qed.

Lemma entry_store_delete_other t b id m id' :
  t = id_trajectory id → id' ≠ id →
  entry (store t {| can_append_ := b;
                    data_ := delete (GetIndex id) (positions m t) |} m) id'
  = entry m id'.
Proof.
  intros -> Hne. apply entry_store_other. intros Ht. simpl.
  apply lookup_delete_ne. intros Hi. apply Hne. by apply id_ext.
Qed.

(** A trajectory topped at [n] takes its next entry at [n]. *)
Lemma topped_next_position (ps : gmap Z DataType) n :
  topped ps n → 0 ≤ n → n ≤ INT_MAX → next_position ps n.
Proof.
  intros Htop Hn Hmax. destruct (decide (ps = ∅)) as [->|Hne].
  - left. split; [done|].
    destruct (decide (0 < n)) as [Hpos|]; [|lia].
    destruct (proj2 Htop Hpos) as [v Hv]. by rewrite lookup_empty in Hv.
  - right. destruct (largest_key_exists _ Hne) as [k Hk].
    pose proof (proj1 Htop _ (proj1 Hk)) as Hrange.
    assert (0 < n) as Hpos by lia.
    pose proof (largest_key_unique _ _ _ Hk (topped_largest _ _ Htop Hpos)).
    exists k. split; [done|]. lia.
Qed.

(** Reading off the traversal that a trajectory is not saturated. *)
Lemma rbegin_not_saturated (ps : gmap Z DataType) k v :
  map_rbegin ps = Some (k, v) → k < INT_MAX → ¬ saturated ps.
Proof.
  intros Hr Hlt (k' & Hk' & Hbig).
  apply map_rbegin_largest in Hr as [_ Hk].
  pose proof (largest_key_unique _ _ _ Hk Hk'). lia.
Qed.

Lemma empty_not_saturated : ¬ saturated (∅ : gmap Z DataType).
Proof. intros (k & Hk & _). by apply largest_key_empty in Hk. Qed.

Lemma run_from_0_topped (ps : gmap Z DataType) n : run_from_0 ps n → topped ps n.
Proof.
  intros Hrun. split; [intros k; apply Hrun|].
  intros Hn. apply Hrun. lia.
Qed.
End Frames.

(** C4: [Trim] of a stored identifier returns, removes that entry and no
    other, clears the flag of the trajectory when the entry was the
    trailing one and leaves the flag as it was otherwise; after a trim of
    the trailing entry every later [Append] to the trajectory fails its
    check, whatever returning calls come in between. *)
Theorem Trim_removes_and_gates {Id} `{IdType Id} {DataType}
    (id : Id) (m : MapById DataType) (v : DataType) :
  entry m id = Some v →
  ∃ m', Trim id m = Return tt m'
    ∧ entry m' id = None
    ∧ (∀ id', id' ≠ id → entry m' id' = entry m id')
    ∧ (trailing m id → flag m' (id_trajectory id) = Some false)
    ∧ (¬ trailing m id →
       flag m' (id_trajectory id) = flag m (id_trajectory id))
    ∧ (trailing m id →
       ∀ (cs : list (call Id DataType)) rs m'' d,
         run cs m' = Return rs m'' →
         Append (id_trajectory id) d m'' = CheckFailed m'').
Proof.
  intros Hv. rewrite (Trim_entry _ _ _ Hv). eexists. split; [done|].
  assert (∀ b, trailing m id →
    flag (store (id_trajectory id)
            {| can_append_ :=
                 if decide (largest_key (positions m (id_trajectory id))
                              (GetIndex id)) then false else b;
               data_ := delete (GetIndex id)
                          (positions m (id_trajectory id)) |} m)
      (id_trajectory id) = Some false) as Hcleared.
  { intros b Htr. rewrite flag_store, decide_True by done. simpl.
    by rewrite decide_True. }
  split; [|split; [|split; [|split]]].
  - rewrite entry_store, decide_True by done. simpl. apply lookup_delete_eq.
  - intros id' Hne. by apply entry_store_delete_other.
  - apply Hcleared.
  - intros Hnot. rewrite flag_store, decide_True by done. simpl.
    rewrite decide_False by done. symmetry. by eapply flag_of_entry.
  - intros Htr cs rs m'' d Hrun.
    eapply Append_after_locked; [|done]. by apply Hcleared.
Qed.

Lemma Trim_removes_and_gates_witness :
  entry (after [CallAppend 0 "a"; CallAppend 0 "b"]) (MkNodeId 0 1) = Some "b"
  ∧ ∃ m', Trim (MkNodeId 0 1) (after [CallAppend 0 "a"; CallAppend 0 "b"])
          = Return tt m'
          ∧ entry m' (MkNodeId 0 1) = None.
Proof.
  assert (entry (after [CallAppend 0 "a"; CallAppend 0 "b"]) (MkNodeId 0 1)
          = Some "b") as Hv by (vm_compute; reflexivity).
  split; [exact Hv|].
  destruct (Trim_removes_and_gates _ _ _ Hv) as (m' & Ht & Hgone & _).
  exists m'. split; [exact Ht | exact Hgone].
Defined.

(** C5: [Insert] at a free identifier returns, stores the data there,
    leaves the other entries alone and clears the flag of the trajectory,
    whether or not the position is the highest one; every later [Append]
    to the trajectory fails its check, whatever returning calls come in
    between. *)
Theorem Insert_stores_and_locks {Id} `{IdType Id} {DataType}
    (id : Id) (d : DataType) (m : MapById DataType) :
  entry m id = None →
  ∃ m', Insert id d m = Return tt m'
    ∧ entry m' id = Some d
    ∧ (∀ id', id' ≠ id → entry m' id' = entry m id')
    ∧ flag m' (id_trajectory id) = Some false
    ∧ ∀ (cs : list (call Id DataType)) rs m'' d',
        run cs m' = Return rs m'' →
        Append (id_trajectory id) d' m'' = CheckFailed m''.
Proof.
  intros Hfree. rewrite (Insert_fresh _ _ _ Hfree). eexists. split; [done|].
  assert (flag (store (id_trajectory id)
                  {| can_append_ := false;
                     data_ := <[GetIndex id := d]>
                                (positions m (id_trajectory id)) |} m)
            (id_trajectory id) = Some false) as Hcleared.
  { by rewrite flag_store, decide_True. }
  split; [|split; [|split]].
  - rewrite entry_store, decide_True by done. simpl. apply lookup_insert_eq.
  - intros id' Hne. apply entry_store_insert_other.
    by rewrite make_id_eta.
  - done.
  - intros cs rs m'' d' Hrun. by eapply Append_after_locked.
Qed.

Lemma Insert_stores_and_locks_witness :
  entry (after gap_calls) (MkNodeId 0 0) = None
  ∧ ¬ trailing (after gap_calls) (MkNodeId 0 0)
  ∧ ∃ m', Insert (MkNodeId 0 0) "c" (after gap_calls) = Return tt m'
          ∧ flag m' 0 = Some false
          ∧ Append (Id:=NodeId) 0 "d" m' = CheckFailed m'.
Proof.
  assert (entry (after gap_calls) (MkNodeId 0 0) = None) as Hfree
    by (vm_compute; reflexivity).
  split; [exact Hfree|]. split.
  { intros [[v Hv] _]. vm_compute in Hv. discriminate. }
  destruct (Insert_stores_and_locks (MkNodeId 0 0) "c" _ Hfree)
    as (m' & Hi & _ & _ & Hf & Hlock).
  exists m'. split; [exact Hi|]. split; [exact Hf|].
  apply (Hlock [] [] m' "d"). reflexivity.
Defined.

(** C8, as stated, fails for [at] and for [Trim] of a missing trajectory:
    on the fresh container, where the identifier (0, 0) has no entry, both
    leave through the [std::out_of_range] of [std::map::at] with the
    container unchanged, an exception the caller can catch, and neither
    fails a [CHECK]. *)
Lemma missing_lookup_counterexample :
  entry (empty_map (DataType:=string)) (MkNodeId 0 0) = None
  ∧ at_ (MkNodeId 0 0) (empty_map (DataType:=string)) = OutOfRange empty_map
  ∧ Trim (MkNodeId 0 0) (empty_map (DataType:=string)) = OutOfRange empty_map
  ∧ (∀ m', at_ (MkNodeId 0 0) (empty_map (DataType:=string))
           ≠ CheckFailed m')
  ∧ (∀ m', Trim (MkNodeId 0 0) (empty_map (DataType:=string))
           ≠ CheckFailed m').
Proof. repeat split; try (vm_compute; reflexivity); intros m'; vm_compute; discriminate. Qed.

(** C8 (amended): [Insert] at an occupied identifier fails its [CHECK],
    and so does [Trim] of an identifier without entry whose trajectory
    exists: these two abort the process.  [Trim] of an identifier whose
    trajectory does not exist, and [at] of an identifier without entry,
    do not return either, but leave through the [std::out_of_range] of
    [std::map::at], with the container as it was before the call. *)
Theorem violated_preconditions {Id} `{IdType Id} {DataType}
    (id : Id) (d : DataType) (m : MapById DataType) :
  (is_Some (entry m id) → ∃ m', Insert id d m = CheckFailed m')
  ∧ (entry m id = None →
       (is_Some (trajectories_ m !! id_trajectory id) →
        Trim id m = CheckFailed m)
     ∧ (trajectories_ m !! id_trajectory id = None →
        Trim id m = OutOfRange m)
     ∧ at_ id m = OutOfRange m).
Proof.
  split.
  - intros Hdup. rewrite (Insert_duplicate _ _ _ Hdup). by eexists.
  - intros Hno. split; [|split].
    + intros Htr. by apply Trim_no_entry.
    + apply Trim_no_trajectory.
    + by apply at_missing.
Qed.

Lemma violated_preconditions_witness :
  (∃ m', Insert (MkNodeId 0 1) "z" (after gap_calls) = CheckFailed m')
  ∧ Trim (MkNodeId 0 0) (after gap_calls) = CheckFailed (after gap_calls)
  ∧ Trim (MkNodeId 3 0) (after gap_calls) = OutOfRange (after gap_calls)
  ∧ at_ (MkNodeId 0 0) (after gap_calls) = OutOfRange (after gap_calls).
Proof.
  destruct (violated_preconditions (MkNodeId 0 1) "z" (after gap_calls))
    as [Hins _].
  destruct (violated_preconditions (MkNodeId 0 0) "z" (after gap_calls))
    as [_ Hmiss0].
  destruct (violated_preconditions (MkNodeId 3 0) "z" (after gap_calls))
    as [_ Hmiss3].
  split; [apply Hins; vm_compute; by eexists|].
  destruct Hmiss0 as (Htrim & _ & Hat); [vm_compute; reflexivity|].
  destruct Hmiss3 as (_ & Hthrow & _); [vm_compute; reflexivity|].
  split; [apply Htrim; vm_compute; by eexists|].
  split; [apply Hthrow; vm_compute; reflexivity | exact Hat].
Defined.

Section Saturation.
Context {Id : Type} `{IdType Id} {DataType : Type}.
Implicit Types (m : MapById DataType) (t k p n : Z) (d v : DataType).
Implicit Types (cs : list (call Id DataType)).

(** The container that a row of appends leaves. *)
Lemma run_appends_state t (ds : list DataType) : ∀ m n,
  0 ≤ t → appendable m t = true → run_from_0 (positions m t) n →
  0 ≤ n → n + Z.of_nat (length ds) ≤ INT_MAX + 1 →
  ∃ rs m', run (Id:=Id) (CallAppend t <$> ds) m = Return rs m'
           ∧ appendable m' t = true
           ∧ run_from_0 (positions m' t) (n + Z.of_nat (length ds)).
Proof.
  induction ds as [|d ds IH]; intros m n Ht Hap Hrun Hn Hfit.
  { exists [], m. split; [done|]. split; [done|].
    by replace (n + Z.of_nat (length (@nil DataType))) with n
      by (simpl; lia). }
  rewrite length_cons, Nat2Z.inj_succ in Hfit |- *.
  assert (next_position (positions m t) n) as Hnext.
  { apply topped_next_position; [by apply run_from_0_topped | done | lia]. }
  destruct (Append_next (Id:=Id) t d m n Ht Hap Hnext) as [Heq _].
  destruct (IH (store t {| can_append_ := true;
                           data_ := <[n := d]> (positions m t) |} m) (n + 1))
    as (rs & m' & Hrest & Hap' & Hrun'); [done | | | lia | lia |].
  - by rewrite appendable_store, decide_True.
  - rewrite positions_store, decide_True by done. simpl.
    by apply run_from_0_insert.
  - eexists _, m'. split; [|split; [done|]].
    + rewrite fmap_cons. cbn [run perform].
      rewrite Heq. cbn [bind]. rewrite Hrest. cbn [bind]. done.
    + by replace (n + Z.succ (Z.of_nat (length ds)))
        with (n + 1 + Z.of_nat (length ds)) by lia.
Qed.

(** A run that returns, followed by calls whose run is undefined. *)
Lemma run_app_Undefined cs cs' m rs m1 :
  run cs m = Return rs m1 → run cs' m1 = Undefined →
  run (cs ++ cs') m = Undefined.
Proof.
  revert m rs. induction cs as [|c cs IH]; intros m rs Hrun Hnext.
  - simpl in Hrun. by simplify_eq.
  - apply run_cons_Return in Hrun as (r & m2 & rs' & Hp & Hrun & _).
    rewrite <-app_comm_cons. cbn [run]. rewrite Hp. cbn [bind].
    by rewrite (IH _ _ Hrun Hnext).
Qed.

(** [INT_MAX + 1] appends to one trajectory of the fresh container
    return, and leave the trajectory with its flag set and its highest
    position at [INT_MAX]. *)
Lemma saturated_reachable t d :
  0 ≤ t →
  ∃ rs m,
    run (Id:=Id) (CallAppend t <$> replicate (Z.to_nat (INT_MAX + 1)) d)
      empty_map = Return rs m
    ∧ flag m t = Some true
    ∧ largest_key (positions m t) INT_MAX.
Proof.
  intros Ht.
  remember (Z.to_nat (INT_MAX + 1)) as N eqn:HN.
  assert (Z.of_nat N = INT_MAX + 1) as HN'.
  { subst N. apply Z2Nat.id. unfold INT_MAX. lia. }
  clear HN.
  destruct (run_appends_state t (replicate N d) empty_map 0)
    as (rs & m & Hrun & Hap & Hfull).
  - done.
  - unfold appendable, flag, empty_map. simpl. by rewrite lookup_empty.
  - apply run_from_0_empty_map.
  - lia.
  - rewrite length_replicate. lia.
  - rewrite length_replicate, HN', Z.add_0_l in Hfull.
    assert (largest_key (positions m t) INT_MAX) as Hlargest.
    { pose proof (topped_largest _ _ (run_from_0_topped _ _ Hfull)) as Hl.
      replace (INT_MAX + 1 - 1) with INT_MAX in Hl by lia.
      apply Hl. unfold INT_MAX. lia. }
    exists rs, m. split; [done|]. split; [|done].
    destruct Hlargest as [[v Hv] _].
    assert (entry m (make_id t INT_MAX) = Some v) as Hentry.
    { by rewrite entry_positions, id_trajectory_make, GetIndex_make. }
    apply flag_of_entry in Hentry.
    rewrite id_trajectory_make in Hentry. by rewrite Hentry, Hap.
Qed.

Lemma largest_saturated (ps : gmap Z DataType) :
  largest_key ps INT_MAX → saturated ps.
Proof. intros Hl. exists INT_MAX. split; [done | lia]. Qed.
End Saturation.

(** C9, as stated, fails at a trajectory whose highest position is
    [INT_MAX]: [INT_MAX + 1] appends to trajectory 0 of the fresh container
    return and leave its flag set, and the next [Append] to it has no
    defined result, so it returns no identifier to look up. *)
Lemma at_after_Append_counterexample :
  ∃ rs m,
    run (Id:=NodeId)
      (CallAppend 0 <$> replicate (Z.to_nat (INT_MAX + 1)) "a") empty_map
    = Return rs m
    ∧ flag m 0 = Some true
    ∧ ¬ ∃ (id : NodeId) m', Append 0 "b" m = Return id m'.
Proof.
  destruct (saturated_reachable (Id:=NodeId) 0 "a") as (rs & m & Hrun & Hf & Hl);
    [lia|].
  exists rs, m. split; [exact Hrun|]. split; [exact Hf|].
  intros (id & m' & Happ).
  rewrite Append_saturated in Happ; [discriminate | lia | |].
  - unfold appendable. by rewrite Hf.
  - by apply largest_saturated.
Qed.

(** C9 (amended): for a trajectory [t >= 0] whose flag is set (or which
    does not exist yet) and whose highest position is below [INT_MAX],
    [Append] returns an identifier at which [at] then finds the appended
    data, and every lookup that returned before the append returns the
    same data after it. *)
Theorem at_after_Append {Id} `{IdType Id} {DataType}
    (t : Z) (v : DataType) (m : MapById DataType) :
  0 ≤ t → appendable m t = true → ¬ saturated (positions m t) →
  ∃ (id : Id) m', Append t v m = Return id m'
    ∧ at_ id m' = Return v m'
    ∧ ∀ (id' : Id) v', at_ id' m = Return v' m → at_ id' m' = Return v' m'.
Proof.
  intros Ht Hap Hns.
  destruct (next_or_saturated (positions m t)) as [[p Hp]|]; [|done].
  destruct (Append_next t v m p Ht Hap Hp) as [Heq Hfree].
  eexists _, _. split; [exact Heq|]. split.
  - apply at_entry. rewrite entry_store, decide_True
      by by rewrite id_trajectory_make.
    simpl. rewrite GetIndex_make. apply lookup_insert_eq.
  - intros id' v' Hat. apply at_Return in Hat. apply at_entry.
    rewrite entry_store_insert_other; [done|].
    intros ->. rewrite entry_positions, id_trajectory_make, GetIndex_make in Hat.
    congruence.
Qed.

Lemma at_after_Append_witness :
  ∃ (id : NodeId) m', Append 0 "c" (after gap_calls) = Return id m'
    ∧ at_ id m' = Return "c" m'
    ∧ at_ (MkNodeId 0 1) m' = Return "b" m'.
Proof.
  destruct (at_after_Append (Id:=NodeId) 0 "c" (after gap_calls))
    as (id & m' & Happ & Hat & Hold).
  - lia.
  - vm_compute. reflexivity.
  - apply (rbegin_not_saturated _ 1 "b"); [vm_compute; reflexivity|].
    vm_compute. reflexivity.
  - exists id, m'. split; [exact Happ|]. split; [exact Hat|].
    apply Hold. vm_compute. reflexivity.
Defined.

Section Appends.
Context {Id : Type} `{IdType Id} {DataType : Type}.
Implicit Types (m : MapById DataType) (t k p n : Z) (d v : DataType) (id : Id).

Lemma appended_ids_S t n len :
  appended_ids t n (S len)
  = Some (make_id t n) :: appended_ids t (n + 1) len.
Proof.
  unfold appended_ids. simpl. rewrite Z.add_0_r. f_equal.
  rewrite <-fmap_S_seq, <-list_fmap_compose.
  apply list_fmap_ext. intros _ i _. simpl. do 2 f_equal. lia.
Qed.

(** Appending to a trajectory that holds exactly [0 .. n-1]. *)
Lemma run_appends t (ds : list DataType) : ∀ m n,
  0 ≤ t → appendable m t = true → run_from_0 (positions m t) n →
  0 ≤ n → n + Z.of_nat (length ds) ≤ INT_MAX + 1 →
  ∃ m', run (CallAppend t <$> ds) m
        = Return (appended_ids t n (length ds)) m'.
Proof.
  induction ds as [|d ds IH]; intros m n Ht Hap Hrun Hn Hfit.
  { by exists m. }
  simpl in Hfit.
  assert (next_position (positions m t) n) as Hnext.
  { apply topped_next_position; [by apply run_from_0_topped | done | lia]. }
  destruct (Append_next t d m n Ht Hap Hnext) as [Heq _].
  destruct (IH (store t {| can_append_ := true;
                           data_ := <[n := d]> (positions m t) |} m) (n + 1))
    as [m' Hrest]; [done | | | lia | lia |].
  - by rewrite appendable_store, decide_True.
  - rewrite positions_store, decide_True by done. simpl.
    by apply run_from_0_insert.
  - exists m'. rewrite fmap_cons. cbn [run perform length].
    rewrite Heq. cbn [bind]. rewrite Hrest. cbn [bind].
    by rewrite appended_ids_S.
Qed.
End Appends.

(** C6, as stated, fails at a trajectory whose highest position is
    [INT_MAX]: [INT_MAX + 1] appends to trajectory 0 of the fresh container
    return and leave its flag set and its highest position at [INT_MAX];
    the next [Append] to it computes [INT_MAX + 1] in [int], which has no
    defined result, so it does not insert at the highest position plus
    one, and the sequence of [INT_MAX + 2] appends does not return the
    positions 0, 1, ... *)
Lemma Append_saturated_counterexample :
  ∃ rs m,
    run (Id:=NodeId)
      (CallAppend 0 <$> replicate (Z.to_nat (INT_MAX + 1)) "a") empty_map
    = Return rs m
    ∧ flag m 0 = Some true
    ∧ largest_key (positions m 0) INT_MAX
    ∧ Append (Id:=NodeId) 0 "b" m = Undefined
    ∧ run (Id:=NodeId)
        (CallAppend 0 <$> (replicate (Z.to_nat (INT_MAX + 1)) "a" ++ ["b"]))
        empty_map
      = Undefined.
Proof.
  destruct (saturated_reachable (Id:=NodeId) 0 "a") as (rs & m & Hrun & Hf & Hl);
    [lia|].
  assert (Append (Id:=NodeId) 0 "b" m = Undefined) as Happ.
  { apply Append_saturated; [lia | | by apply largest_saturated].
    unfold appendable. by rewrite Hf. }
  exists rs, m. split; [exact Hrun|]. split; [exact Hf|].
  split; [exact Hl|]. split; [exact Happ|].
  rewrite fmap_app. apply (run_app_Undefined _ _ _ _ _ Hrun).
  cbn [fmap list_fmap run perform]. by rewrite Happ.
Qed.

(** C6 (amended): [Append] to a trajectory [t >= 0] whose flag is set (or
    which does not exist yet) and whose highest position is below
    [INT_MAX] returns the identifier [(t, p)], where [p] is 0 for a
    trajectory without entries and the highest position plus one
    otherwise; the position was free and now holds the data.  Hence on the
    fresh container [n] appends to one trajectory, [n] at most
    [INT_MAX + 1], return the positions 0, 1, ..., n-1 in call order. *)
Theorem Append_next_position {Id} `{IdType Id} {DataType} :
  (∀ (t : Z) (d : DataType) (m : MapById DataType),
     0 ≤ t → appendable m t = true → ¬ saturated (positions m t) →
     ∃ p m', Append t d m = Return (make_id t p) m'
       ∧ ((positions m t = ∅ ∧ p = 0)
          ∨ (∃ k, largest_key (positions m t) k ∧ p = k + 1))
       ∧ positions m t !! p = None
       ∧ positions m' t = <[p := d]> (positions m t)
       ∧ entry m' (make_id t p) = Some d)
  ∧ (∀ (t : Z) (ds : list DataType),
       0 ≤ t → Z.of_nat (length ds) ≤ INT_MAX + 1 →
       ∃ m', run (CallAppend t <$> ds) empty_map
             = Return ((λ i : nat, Some (make_id t (Z.of_nat i)))
                         <$> seq 0 (length ds)) m').
Proof.
  split.
  - intros t d m Ht Hap Hns.
    destruct (next_or_saturated (positions m t)) as [[p Hp]|]; [|done].
    destruct (Append_next t d m p Ht Hap Hp) as [Heq Hfree].
    eexists p, _. split; [exact Heq|]. split.
    { destruct Hp as [?|(k & ? & ? & ?)]; [by left | right; by exists k]. }
    split; [done|].
    rewrite positions_store, decide_True by done. split; [done|].
    rewrite entry_store, decide_True by by rewrite id_trajectory_make.
    simpl. rewrite GetIndex_make. apply lookup_insert_eq.
  - intros t ds Ht Hfit.
    destruct (run_appends t ds empty_map 0) as [m' Hrun];
      [done | | apply run_from_0_empty_map | lia | lia |].
    + unfold appendable, flag, empty_map. simpl. by rewrite lookup_empty.
    + exists m'. rewrite Hrun. done.
Qed.

Lemma Append_next_position_witness :
  (∃ m', Append 0 "c" (after gap_calls) = Return (MkNodeId 0 2) m'
         ∧ entry m' (MkNodeId 0 2) = Some "c")
  ∧ ∃ m', run (CallAppend 4 <$> ["p"; "q"; "r"]) empty_map
          = Return [Some (MkNodeId 4 0); Some (MkNodeId 4 1);
                    Some (MkNodeId 4 2)] m'.
Proof.
  destruct (Append_next_position (Id:=NodeId) (DataType:=string))
    as [Hone Hmany].
  split.
  - destruct (Hone 0 "c" (after gap_calls))
      as (p & m' & Happ & Hp & _ & _ & Hentry).
    + lia.
    + vm_compute. reflexivity.
    + apply (rbegin_not_saturated _ 1 "b"); vm_compute; reflexivity.
    + assert (p = 2) as ->.
      { assert (largest_key (positions (after gap_calls) 0) 1) as Hl.
        { apply (map_rbegin_largest _ 1 "b"). vm_compute. reflexivity. }
        destruct Hp as [[He _] | (k & Hk & ->)].
        - rewrite He in Hl. by apply largest_key_empty in Hl.
        - by rewrite (largest_key_unique _ _ _ Hk Hl). }
      exists m'. split; [exact Happ | exact Hentry].
  - apply (Hmany 4 ["p"; "q"; "r"]); [lia|]. vm_compute. discriminate.
Defined.

(** C10: [Trim] of a stored entry that is not the trailing one of its
    trajectory returns and leaves every flag as it was.  In particular,
    when two appends to a trajectory returned the positions 0 and 1, a trim
    of position 0 leaves the flag set, and the next append returns
    position 2. *)
Theorem Trim_inner_keeps_flag {Id} `{IdType Id} {DataType} :
  (∀ (id : Id) (m : MapById DataType) (v : DataType),
     entry m id = Some v → ¬ trailing m id →
     ∃ m', Trim id m = Return tt m' ∧ ∀ t, flag m' t = flag m t)
  ∧ (∀ (t : Z) (a b c : DataType) (m0 m1 m2 : MapById DataType),
       Append t a m0 = Return (make_id t 0) m1 →
       Append t b m1 = Return (make_id t 1) m2 →
       ∃ m3 m4, Trim (make_id t 0) m2 = Return tt m3
                ∧ flag m3 t = Some true
                ∧ Append t c m3 = Return (make_id t 2) m4).
Proof.
  assert (∀ (id : Id) (m : MapById DataType) (v : DataType),
     entry m id = Some v → ¬ trailing m id →
     Trim id m
     = Return tt
         (store (id_trajectory id)
            {| can_append_ := appendable m (id_trajectory id);
               data_ := delete (GetIndex id)
                          (positions m (id_trajectory id)) |} m)) as Hinner.
  { intros id m v Hv Hnot. rewrite (Trim_entry _ _ _ Hv).
    by rewrite decide_False. }
  split.
  - intros id m v Hv Hnot. rewrite (Hinner _ _ _ Hv Hnot).
    eexists. split; [done|]. intros t. rewrite flag_store.
    case_decide as Ht; [|done]. subst t. simpl. symmetry.
    by eapply flag_of_entry.
  - intros t a b c m0 m1 m2 H0 H1.
    apply Append_Return in H0 as (Ht & _ & p0 & _ & Hid0 & _ & ->).
    apply (f_equal GetIndex) in Hid0. rewrite !GetIndex_make in Hid0.
    subst p0.
    apply Append_Return in H1 as (_ & _ & p1 & Hnext & Hid1 & Hfree & ->).
    apply (f_equal GetIndex) in Hid1. rewrite !GetIndex_make in Hid1.
    subst p1.
    rewrite positions_store, decide_True in Hnext, Hfree by done.
    rewrite positions_store, decide_True by done.
    simpl in Hnext, Hfree |- *.
    set (ps1 := <[0 := a]> (positions m0 t)) in *.
    set (m1 := store t {| can_append_ := true; data_ := ps1 |} m0).
    set (ps2 := <[1 := b]> ps1).
    set (m2 := store t {| can_append_ := true; data_ := ps2 |} m1).
    assert (positions m2 t = ps2) as Hps2.
    { unfold m2. by rewrite positions_store, decide_True. }
    assert (appendable m2 t = true) as Hap2.
    { unfold m2. by rewrite appendable_store, decide_True. }
    assert (largest_key ps2 1) as Hl2.
    { apply largest_key_insert_above.
      intros k' Hk'. destruct Hnext as [[He _] | (k & [_ Hmax] & _ & Hk)].
      - rewrite He in Hk'. destruct Hk' as [? Hk'].
        by rewrite lookup_empty in Hk'.
      - specialize (Hmax _ Hk'). lia. }
    assert (entry m2 (make_id t 0) = Some a) as Hentry.
    { rewrite entry_positions, id_trajectory_make, GetIndex_make, Hps2.
      unfold ps2, ps1. rewrite lookup_insert_ne by done.
      apply lookup_insert_eq. }
    assert (¬ trailing m2 (make_id t 0)) as Hnot.
    { unfold trailing. rewrite id_trajectory_make, GetIndex_make, Hps2.
      intros Hl0. pose proof (largest_key_unique _ _ _ Hl0 Hl2). lia. }
    rewrite (Hinner _ _ _ Hentry Hnot).
    rewrite id_trajectory_make, GetIndex_make, Hps2, Hap2.
    set (m3 := store t {| can_append_ := true; data_ := delete 0 ps2 |} m2).
    destruct (Append_next t c m3 2) as [Heq _]; [done | | |].
    + unfold m3. by rewrite appendable_store, decide_True.
    + unfold m3. rewrite positions_store, decide_True by done. simpl.
      right. exists 1. split; [by apply largest_key_delete_other|].
      split; [vm_compute; reflexivity | done].
    + eexists _, _. split; [done|]. split; [|exact Heq].
      unfold m3. by rewrite flag_store, decide_True.
Qed.

Lemma Trim_inner_keeps_flag_witness :
  ∃ m3 m4,
    Trim (MkNodeId 0 0) (after [CallAppend 0 "a"; CallAppend 0 "b"])
    = Return tt m3
    ∧ flag m3 0 = Some true
    ∧ Append 0 "c" m3 = Return (MkNodeId 0 2) m4.
Proof.
  destruct (Trim_inner_keeps_flag (Id:=NodeId) (DataType:=string))
    as [_ Hscenario].
  apply (Hscenario 0 "a" "b" "c" empty_map (after [CallAppend 0 "a"])).
  - vm_compute. reflexivity.
  - vm_compute. reflexivity.
Defined.

(** * Iteration order *)

(** C7: in any state the loop from [begin()] to [end()] terminates and
    yields exactly the stored (identifier, data) pairs, each identifier
    once, in ascending order of trajectory and, within a trajectory, of
    position; a trajectory without entries contributes nothing.  In
    particular a container whose entries are at (0,0), (0,1) and (2,0)
    yields these identifiers in this order. *)
Theorem iteration_in_order {Id} `{IdType Id} {DataType}
    (m : MapById DataType) :
  ∃ l : list (IdDataReference Id DataType),
    iterate m = Some l
    ∧ (∀ i d, {| id := i; data := d |} ∈ l ↔ entry m i = Some d)
    ∧ NoDup (id <$> l)
    ∧ StronglySorted id_lt (id <$> l)
    ∧ l = items (trajectories_ m) ≫= (λ p, refs p.1 (items (data_ p.2)))
    ∧ ((∀ i, is_Some (entry m i)
             ↔ i ∈ [make_id 0 0; make_id 0 1; make_id 2 0]) →
       id <$> l = [make_id 0 0; make_id 0 1; make_id 2 0]).
Proof.
  exists (listing m). split; [apply iterate_listing|].
  split; [apply elem_of_listing|].
  split; [apply sorted_ids_NoDup, listing_ids_sorted|].
  split; [apply listing_ids_sorted|]. split; [done|].
  intros Hentries. apply sorted_ids_unique.
  - apply listing_ids_sorted.
  - repeat constructor; unfold id_lt;
      rewrite ?id_trajectory_make, ?GetIndex_make; lia.
  - intros i. by rewrite elem_of_listing_ids.
Qed.

Lemma iteration_in_order_witness :
  flag (after sparse_calls) 1 = Some false
  ∧ ∃ l : list (IdDataReference NodeId string),
      iterate (after sparse_calls) = Some l
      ∧ id <$> l = [MkNodeId 0 0; MkNodeId 0 1; MkNodeId 2 0].
Proof.
  split; [vm_compute; reflexivity|].
  destruct (iteration_in_order (Id:=NodeId) (after sparse_calls))
    as (l & Hiter & _ & _ & _ & _ & Hids).
  exists l. split; [exact Hiter|].
  apply Hids. intros i. rewrite <-elem_of_listing_ids.
  replace (id <$> listing (after sparse_calls))
    with [MkNodeId 0 0; MkNodeId 0 1; MkNodeId 2 0]
    by (vm_compute; reflexivity).
  done.
Defined.

(** * The dense container *)

(** ** Conversions and [std::vector] *)

Lemma size_of_int_small z : 0 ≤ z ≤ INT_MAX + 1 → size_of_int z = z.
Proof.
  unfold size_of_int, INT_MAX. intros Hz.
  change (2 ^ 64) with 18446744073709551616. apply Z.mod_small. lia.
Qed.

Lemma size_of_int_negative z :
  - INT_MAX - 1 ≤ z < 0 → size_of_int z = 18446744073709551616 + z.
Proof.
  unfold size_of_int, INT_MAX. intros Hz.
  change (2 ^ 64) with 18446744073709551616.
  symmetry. apply (Z.mod_unique _ _ (-1)); lia.
Qed.

Lemma int_of_size_small n : 0 ≤ n ≤ INT_MAX → int_of_size n = n.
Proof.
  unfold int_of_size, INT_MAX. intros Hn.
  change (2 ^ 31) with 2147483648. change (2 ^ 32) with 4294967296.
  rewrite Z.mod_small; lia.
Qed.

Section StdVectorFacts.
Context {A : Type}.
Implicit Types (v : list A) (x : A) (n i j : Z).

Lemma vec_size_nonneg v : 0 ≤ vec_size v.
Proof. unfold vec_size. lia. Qed.

Lemma vec_get_Some v i a :
  vec_get v i = Some a → 0 ≤ i < vec_size v.
Proof. unfold vec_get. by case_decide. Qed.

Lemma vec_get_is_Some v i : is_Some (vec_get v i) ↔ 0 ≤ i < vec_size v.
Proof.
  split; [intros [a Ha]; by eapply vec_get_Some|].
  intros Hi. unfold vec_get. rewrite decide_True by done.
  apply lookup_lt_is_Some. unfold vec_size in Hi. lia.
Qed.

Lemma vec_get_None v i : vec_get v i = None ↔ ¬ (0 ≤ i < vec_size v).
Proof. rewrite eq_None_not_Some, vec_get_is_Some. done. Qed.

Lemma vec_size_app v x : vec_size (v ++ [x]) = vec_size v + 1.
Proof. unfold vec_size. rewrite length_app. simpl. lia. Qed.

(** [push_back] keeps the old elements and puts the new one last. *)
Lemma vec_get_push_back v x i :
  vec_get (v ++ [x]) i
  = if decide (i = vec_size v) then Some x else vec_get v i.
Proof.
  unfold vec_get. rewrite vec_size_app.
  pose proof (vec_size_nonneg v) as Hv.
  destruct (decide (i = vec_size v)) as [->|Hne].
  - rewrite decide_True by lia. unfold vec_size.
    rewrite Nat2Z.id. by rewrite lookup_app_r, Nat.sub_diag.
  - unfold vec_size in *.
    destruct (decide (0 ≤ i < Z.of_nat (length v))).
    + rewrite decide_True by lia. apply lookup_app_l. lia.
    + by rewrite decide_False by lia.
Qed.

Lemma vec_size_resize x n v :
  vec_size v ≤ n → vec_size (vec_resize x n v) = n.
Proof.
  unfold vec_size, vec_resize. intros Hn.
  rewrite length_app, length_take, length_replicate. lia.
Qed.

(** Growing a vector keeps its elements and adds copies of [x]. *)
Lemma vec_get_resize x n v i :
  vec_size v ≤ n →
  vec_get (vec_resize x n v) i
  = if decide (0 ≤ i < n) then Some (default x (vec_get v i)) else None.
Proof.
  intros Hn. unfold vec_get at 1. rewrite vec_size_resize by done.
  destruct (decide (0 ≤ i < n)) as [Hi|]; [|done].
  unfold vec_resize, vec_get, vec_size in *.
  rewrite take_ge by lia.
  destruct (decide (0 ≤ i < Z.of_nat (length v))) as [Hold|Hold].
  - rewrite lookup_app_l by lia.
    destruct (lookup_lt_is_Some_2 v (Z.to_nat i)) as [a Ha]; [lia|].
    by rewrite Ha.
  - rewrite lookup_app_r by lia. simpl.
    apply lookup_replicate_2. lia.
Qed.

Lemma vec_size_set v j x : vec_size (vec_set v j x) = vec_size v.
Proof. unfold vec_size, vec_set. by rewrite length_insert. Qed.

Lemma vec_get_set v j x i :
  0 ≤ j < vec_size v →
  vec_get (vec_set v j x) i = if decide (i = j) then Some x else vec_get v i.
Proof.
  intros Hj. unfold vec_get. rewrite vec_size_set.
  unfold vec_set, vec_size in *.
  destruct (decide (i = j)) as [->|Hne].
  - rewrite decide_True by done.
    apply list_lookup_insert_eq. lia.
  - case_decide; [|done]. apply list_lookup_insert_ne. lia.
Qed.
End StdVectorFacts.

(** ** [NestedVectorsById], case by case *)

Section Nested.
Context {Id : Type} `{IdType Id} {ValueType : Type}.
Implicit Types (c : NestedVectorsById ValueType) (t i : Z) (v : ValueType).
Implicit Types (id : Id).

Lemma nested_row_size_nonneg c t : 0 ≤ vec_size (nested_row c t).
Proof. apply vec_size_nonneg. Qed.

Lemma nested_row_outside c t :
  ¬ (0 ≤ t < vec_size (nested_data_ c)) → nested_row c t = [].
Proof.
  intros Ht. unfold nested_row.
  by rewrite (proj2 (vec_get_None _ _) Ht).
Qed.

(** What [Append] does for a trajectory id it accepts. *)
Lemma NestedAppend_spec t v c :
  0 ≤ t < INT_MAX → vec_size (nested_data_ c) ≤ INT_MAX →
  ∃ c', NestedAppend (Id:=Id) t v c
        = VReturn (make_id t (int_of_size (vec_size (nested_row c t)))) c'
    ∧ vec_size (nested_data_ c') = Z.max (vec_size (nested_data_ c)) (t + 1)
    ∧ (∀ t', vec_get (nested_data_ c') t'
             = if decide (t' = t) then Some (nested_row c t ++ [v])
               else if decide (0 ≤ t' < vec_size (nested_data_ c'))
                    then Some (nested_row c t') else None)
    ∧ ∀ t', nested_row c' t'
            = if decide (t' = t) then nested_row c t ++ [v]
              else nested_row c t'.
Proof.
  intros Ht Hsize. unfold NestedAppend, int_succ.
  rewrite decide_True by lia.
  rewrite (size_of_int_small (t + 1)), (size_of_int_small t) by lia.
  set (n := Z.max (vec_size (nested_data_ c)) (t + 1)).
  assert (vec_size (nested_data_ c) ≤ n) as Hle by lia.
  rewrite decide_False by (unfold VECTOR_MAX_SIZE, INT_MAX in *; lia).
  rewrite (vec_get_resize [] n _ t Hle), decide_True by lia.
  fold (nested_row c t).
  assert (0 ≤ t < vec_size (vec_resize [] n (nested_data_ c))) as Hin.
  { rewrite vec_size_resize by done. lia. }
  assert (∀ t', vec_get (vec_set (vec_resize [] n (nested_data_ c)) t
                           (nested_row c t ++ [v])) t'
             = if decide (t' = t) then Some (nested_row c t ++ [v])
               else if decide (0 ≤ t' < n)
                    then Some (nested_row c t') else None) as Hget.
  { intros t'. rewrite vec_get_set by done.
    case_decide; [done|]. by rewrite vec_get_resize. }
  eexists. split; [done|]. simpl.
  rewrite vec_size_set, vec_size_resize by done.
  split; [done|]. split; [exact Hget|].
  intros t'. unfold nested_row at 1. simpl. rewrite Hget.
  case_decide; [done|]. case_decide as Hrange; [done|].
  simpl. symmetry. apply nested_row_outside. lia.
Qed.

Lemma nested_at_Return id c v c' :
  nested_at id c = VReturn v c' →
  c' = c
  ∧ ∃ row, vec_get (nested_data_ c) (size_of_int (id_trajectory id)) = Some row
           ∧ vec_get row (size_of_int (GetIndex id)) = Some v.
Proof.
  unfold nested_at.
  destruct (vec_get (nested_data_ c) _) as [row|] eqn:Hrow; [|done].
  destruct (vec_get row _) as [v'|] eqn:Hv; [|done].
  intros [= -> ->]. split; [done|]. by exists row.
Qed.

Lemma nested_at_found id c row v :
  vec_get (nested_data_ c) (size_of_int (id_trajectory id)) = Some row →
  vec_get row (size_of_int (GetIndex id)) = Some v →
  nested_at id c = VReturn v c.
Proof. intros Hrow Hv. unfold nested_at. by rewrite Hrow, Hv. Qed.

Lemma size_of_int_int z :
  is_int z →
  (0 ≤ z ∧ size_of_int z = z) ∨ (z < 0 ∧ INT_MAX < size_of_int z).
Proof.
  unfold is_int, INT_MIN. intros Hz. destruct (decide (0 ≤ z)).
  - left. split; [done|]. apply size_of_int_small. lia.
  - right. split; [lia|]. rewrite size_of_int_negative; unfold INT_MAX in *; lia.
Qed.

(** [vec_get] at the [size_t] image of an [int], for a vector that an
    [int] can count. *)
Lemma vec_get_size_of_int {A} (l : list A) z :
  is_int z → vec_size l ≤ INT_MAX + 1 →
  vec_get l (size_of_int z) = vec_get l z.
Proof.
  intros Hz Hl. destruct (size_of_int_int z Hz) as [[_ ->] | [Hneg Hbig]];
    [done|].
  rewrite (proj2 (vec_get_None l (size_of_int z))) by lia.
  symmetry. apply vec_get_None. lia.
Qed.

Lemma nested_row_size_le c t :
  int_sized c → vec_size (nested_row c t) ≤ INT_MAX.
Proof. intros [_ Hrows]. apply Hrows. Qed.

Lemma nested_at_entry id c :
  is_int (id_trajectory id) → is_int (GetIndex id) → int_sized c →
  nested_at id c
  = match nested_entry c id with
    | Some v => VReturn v c
    | None => VOutOfRange c
    end.
Proof.
  intros Ht Hi Hc. unfold nested_at, nested_entry.
  rewrite (vec_get_size_of_int (nested_data_ c)) by (done || destruct Hc; lia).
  unfold nested_row.
  destruct (vec_get (nested_data_ c) (id_trajectory id)) as [row|] eqn:Hrow;
    simpl.
  - assert (vec_size row ≤ INT_MAX) as Hlen.
    { pose proof (nested_row_size_le c (id_trajectory id) Hc) as Hle.
      unfold nested_row in Hle. by rewrite Hrow in Hle. }
    rewrite (vec_get_size_of_int row) by (done || lia). done.
  - unfold vec_get at 1. simpl. by rewrite decide_False by (unfold vec_size; simpl; lia).
Qed.
End Nested.

(** X1: [NestedVectorsById::Append] with a trajectory id in
    [0 .. INT_MAX - 1], on a container whose sizes an [int] can count,
    returns the identifier made of the trajectory id and the number of
    values the trajectory held; [at] then finds the value there, and every
    lookup that returned before returns the same value. *)
Theorem NestedAppend_then_at {Id} `{IdType Id} {ValueType}
    (t : Z) (v : ValueType) (c : NestedVectorsById ValueType) :
  0 ≤ t < INT_MAX → int_sized c →
  ∃ c', NestedAppend (Id:=Id) t v c
        = VReturn (make_id t (vec_size (nested_row c t))) c'
    ∧ nested_at (make_id t (vec_size (nested_row c t))) c' = VReturn v c'
    ∧ ∀ (id' : Id) v', nested_at id' c = VReturn v' c →
                       nested_at id' c' = VReturn v' c'.
Proof.
  intros Ht Hc. pose proof (nested_row_size_le c t Hc) as Hk.
  pose proof (nested_row_size_nonneg c t) as Hk0.
  destruct (NestedAppend_spec (Id:=Id) t v c Ht (proj1 Hc))
    as (c' & Happ & Hsize & Hget & Hrow).
  rewrite int_of_size_small in Happ by lia.
  exists c'. split; [exact Happ|]. split.
  - apply (nested_at_found _ _ (nested_row c t ++ [v])).
    + rewrite id_trajectory_make, size_of_int_small by lia.
      by rewrite Hget, decide_True.
    + rewrite GetIndex_make, size_of_int_small by lia.
      by rewrite vec_get_push_back, decide_True.
  - intros id' v' Hat.
    apply nested_at_Return in Hat as (_ & row & Hrow' & Hv').
    pose proof (vec_get_Some _ _ _ Hrow') as HT.
    pose proof (vec_get_Some _ _ _ Hv') as HI.
    set (T := size_of_int (id_trajectory id')) in *.
    destruct (decide (T = t)) as [HTt|HTt].
    + apply (nested_at_found _ _ (row ++ [v])).
      * fold T. rewrite Hget, decide_True by done.
        unfold nested_row. by rewrite <-HTt, Hrow'.
      * rewrite vec_get_push_back, decide_False by lia. done.
    + apply (nested_at_found _ _ row); [|done].
      fold T. rewrite Hget, decide_False, decide_True by lia.
      unfold nested_row. by rewrite Hrow'.
Qed.

Lemma int_sized_dense_after_calls : int_sized (dense_after dense_calls).
Proof.
  split; [vm_compute; discriminate|].
  intros t. unfold nested_row, vec_get.
  case_decide as Ht; [|vm_compute; discriminate].
  change (vec_size (nested_data_ (dense_after dense_calls))) with 3 in Ht.
  assert (t = 0 ∨ t = 1 ∨ t = 2) as [-> | [-> | ->]] by lia;
    vm_compute; discriminate.
Qed.

Lemma NestedAppend_then_at_witness :
  ∃ c', NestedAppend 2 "d" (dense_after dense_calls)
        = VReturn (MkNodeId 2 2) c'
        ∧ nested_at (MkNodeId 2 2) c' = VReturn "d" c'
        ∧ nested_at (MkNodeId 0 0) c' = VReturn "b" c'.
Proof.
  destruct (NestedAppend_then_at (Id:=NodeId) 2 "d" (dense_after dense_calls))
    as (c' & Happ & Hat & Hold).
  - unfold INT_MAX. lia.
  - apply int_sized_dense_after_calls.
  - exists c'. split; [exact Happ|]. split; [exact Hat|].
    apply Hold. vm_compute. reflexivity.
Defined.

(** X2: on a container whose sizes an [int] can count, a returning
    [NestedVectorsById::Append] to a trajectory [t] in [0 .. INT_MAX - 1]
    that holds fewer than [INT_MAX] values makes [num_trajectories] the
    larger of its old value and [t + 1], makes [num_indices(t)] one more
    than the trajectory held, creates the trajectories between the old end
    and [t] without values, leaves [num_indices] of every other existing
    trajectory as it was, and keeps the sizes countable by an [int]. *)
Theorem NestedAppend_sizes {Id} `{IdType Id} {ValueType}
    (t : Z) (v : ValueType) (c c' : NestedVectorsById ValueType) (id : Id) :
  0 ≤ t < INT_MAX → int_sized c → vec_size (nested_row c t) < INT_MAX →
  NestedAppend t v c = VReturn id c' →
  num_trajectories c' = Z.max (num_trajectories c) (t + 1)
  ∧ num_indices t c' = VReturn (vec_size (nested_row c t) + 1) c'
  ∧ (∀ t', num_trajectories c ≤ t' < t → num_indices t' c' = VReturn 0 c')
  ∧ (∀ t' n, t' ≠ t → is_int t' →
       num_indices t' c = VReturn n c → num_indices t' c' = VReturn n c')
  ∧ int_sized c'.
Proof.
  intros Ht Hc Hk Happ.
  pose proof (nested_row_size_nonneg c t) as Hk0.
  pose proof (vec_size_nonneg (nested_data_ c)) as Hn0.
  destruct (NestedAppend_spec (Id:=Id) t v c Ht (proj1 Hc))
    as (c1 & Happ1 & Hsize & Hget & Hrow).
  rewrite Happ1 in Happ. injection Happ as _ ->.
  destruct Hc as [Hn Hrows].
  assert (num_trajectories c = vec_size (nested_data_ c)) as Hnum.
  { unfold num_trajectories. apply int_of_size_small. lia. }
  split; [|split; [|split; [|split]]].
  - unfold num_trajectories at 1. rewrite Hsize, Hnum.
    apply int_of_size_small. lia.
  - unfold num_indices. rewrite size_of_int_small, Hget, decide_True by lia.
    rewrite vec_size_app, int_of_size_small by lia. done.
  - intros t' Ht'. rewrite Hnum in Ht'.
    unfold num_indices. rewrite size_of_int_small, Hget by lia.
    rewrite decide_False, decide_True by lia.
    rewrite nested_row_outside by lia. done.
  - intros t' n Hne Hint. unfold num_indices.
    rewrite !(vec_get_size_of_int _ t') by (done || lia).
    destruct (vec_get (nested_data_ c) t') as [row|] eqn:Hrow'; [|done].
    intros [= <-]. pose proof (vec_get_Some _ _ _ Hrow') as Hin.
    rewrite Hget, decide_False, decide_True by lia.
    unfold nested_row. by rewrite Hrow'.
  - split; [lia|]. intros t'. rewrite Hrow. case_decide.
    + rewrite vec_size_app. lia.
    + apply Hrows.
Qed.

Lemma NestedAppend_sizes_witness :
  ∃ c', NestedAppend (Id:=NodeId) 4 "d" (dense_after dense_calls)
        = VReturn (MkNodeId 4 0) c'
        ∧ num_trajectories c' = 5
        ∧ num_indices 4 c' = VReturn 1 c'
        ∧ num_indices 3 c' = VReturn 0 c'.
Proof.
  destruct (NestedAppend (Id:=NodeId) 4 "d" (dense_after dense_calls))
    as [i c'| | |] eqn:Happ; try (vm_compute in Happ; discriminate).
  assert (i = MkNodeId 4 0) as ->.
  { vm_compute in Happ. by injection Happ as <- _. }
  destruct (NestedAppend_sizes 4 "d" (dense_after dense_calls) c' (MkNodeId 4 0))
    as (Hnum & Hidx & Hgap & _ & _).
  - unfold INT_MAX. lia.
  - apply int_sized_dense_after_calls.
  - vm_compute. reflexivity.
  - exact Happ.
  - exists c'. split; [reflexivity|]. split; [exact Hnum|].
    split; [exact Hidx|]. apply Hgap.
    split; [vm_compute; intros ?; discriminate | lia].
Defined.

(** X3: [NestedVectorsById::at] with an identifier of [int] fields, on a
    container whose sizes an [int] can count, returns the stored value
    when the trajectory id is in [0 .. num_trajectories - 1] and the index
    in [0 .. num_indices - 1], and raises [std::out_of_range] otherwise,
    in particular for a negative field; it never changes the container. *)
Theorem nested_at_in_range {Id} `{IdType Id} {ValueType}
    (id : Id) (c : NestedVectorsById ValueType) :
  is_int (id_trajectory id) → is_int (GetIndex id) → int_sized c →
  (∀ v, nested_at id c = VReturn v c ↔ nested_entry c id = Some v)
  ∧ (nested_at id c = VOutOfRange c
     ↔ ¬ (0 ≤ id_trajectory id < num_trajectories c
          ∧ 0 ≤ GetIndex id < vec_size (nested_row c (id_trajectory id))))
  ∧ (is_Some (nested_entry c id)
     ↔ 0 ≤ id_trajectory id < num_trajectories c
       ∧ 0 ≤ GetIndex id < vec_size (nested_row c (id_trajectory id))).
Proof.
  intros Ht Hi Hc. rewrite (nested_at_entry id c Ht Hi Hc).
  assert (num_trajectories c = vec_size (nested_data_ c)) as ->.
  { unfold num_trajectories. apply int_of_size_small.
    pose proof (vec_size_nonneg (nested_data_ c)). destruct Hc. lia. }
  assert (is_Some (nested_entry c id)
     ↔ 0 ≤ id_trajectory id < vec_size (nested_data_ c)
       ∧ 0 ≤ GetIndex id < vec_size (nested_row c (id_trajectory id)))
    as Hsome.
  { unfold nested_entry. rewrite vec_get_is_Some. split; [|by intros [_ ?]].
    intros Hin. split; [|done].
    destruct (decide (0 ≤ id_trajectory id < vec_size (nested_data_ c)));
      [done|].
    rewrite nested_row_outside in Hin by done.
    unfold vec_size in Hin. simpl in Hin. lia. }
  split; [|split; [|done]].
  - intros v. destruct (nested_entry c id); split; congruence.
  - rewrite <-Hsome. destruct (nested_entry c id) as [v|].
    + split; [done|]. intros Hno. destruct Hno. by eexists.
    + split; [|done]. intros _ [? ?]. done.
Qed.

Lemma nested_at_in_range_witness :
  nested_at (MkNodeId 2 1) (dense_after dense_calls)
  = VReturn "c" (dense_after dense_calls)
  ∧ nested_at (MkNodeId 2 (-1)) (dense_after dense_calls)
    = VOutOfRange (dense_after dense_calls)
  ∧ nested_at (MkNodeId 1 0) (dense_after dense_calls)
    = VOutOfRange (dense_after dense_calls).
Proof.
  pose proof int_sized_dense_after_calls as Hc.
  assert (∀ z, -5 ≤ z ≤ 5 → is_int z) as Hint
    by (intros z Hz; unfold is_int, INT_MIN, INT_MAX; lia).
  split; [|split].
  - apply (nested_at_in_range (MkNodeId 2 1)); [apply Hint; simpl; lia.. | exact Hc |].
    vm_compute. reflexivity.
  - apply (nested_at_in_range (MkNodeId 2 (-1)));
      [apply Hint; simpl; lia.. | exact Hc |].
    intros [_ [Hneg _]]. simpl in Hneg. lia.
  - apply (nested_at_in_range (MkNodeId 1 0));
      [apply Hint; simpl; lia.. | exact Hc |].
    intros [_ [_ Hlt]]. vm_compute in Hlt. discriminate.
Defined.

(** X4: [NestedVectorsById::Append] has no check of its trajectory id.  On
    a container of at most [INT_MAX] trajectories it returns exactly for
    the ids [0 .. INT_MAX - 1]; with the id -1 it indexes the outer vector out
    of bounds and with [INT_MAX] it overflows [trajectory_id + 1], both of
    which are undefined; with an id of -2 or less the [resize] is asked
    for more than a vector can hold and raises [std::length_error], the
    container being unchanged. *)
Theorem NestedAppend_trajectory_ids {Id} `{IdType Id} {ValueType}
    (t : Z) (v : ValueType) (c : NestedVectorsById ValueType) :
  is_int t → vec_size (nested_data_ c) ≤ INT_MAX →
  (0 ≤ t < INT_MAX → ∃ (id : Id) c', NestedAppend t v c = VReturn id c')
  ∧ (t = -1 ∨ t = INT_MAX → NestedAppend (Id:=Id) t v c = VUndefined)
  ∧ (t ≤ -2 → NestedAppend (Id:=Id) t v c = VLengthError c).
Proof.
  intros Ht Hn.
  pose proof (vec_size_nonneg (nested_data_ c)) as Hn0.
  split; [|split].
  - intros Hok.
    destruct (NestedAppend_spec (Id:=Id) t v c Hok Hn) as (c' & Happ & _).
    by eexists _, c'.
  - intros [-> | ->]; unfold NestedAppend, int_succ.
    + rewrite decide_True by (unfold INT_MAX; lia).
      change (-1 + 1) with 0. rewrite (size_of_int_small 0)
        by (unfold INT_MAX; lia).
      rewrite decide_False by (unfold VECTOR_MAX_SIZE, INT_MAX in *; lia).
      rewrite (proj2 (vec_get_None _ _)); [done|].
      rewrite vec_size_resize by lia.
      rewrite size_of_int_negative by (unfold INT_MAX; lia).
      unfold INT_MAX in *. lia.
    + by rewrite decide_False by lia.
  - intros Hneg. unfold NestedAppend, int_succ.
    unfold is_int, INT_MIN in Ht.
    rewrite decide_True by (unfold INT_MAX; lia).
    rewrite size_of_int_negative by (unfold INT_MAX; lia).
    by rewrite decide_True by (unfold VECTOR_MAX_SIZE in *; lia).
Qed.

Lemma NestedAppend_trajectory_ids_witness :
  NestedAppend (Id:=NodeId) (-1) "x" (dense_after dense_calls) = VUndefined
  ∧ NestedAppend (Id:=NodeId) (-2) "x" (dense_after dense_calls)
    = VLengthError (dense_after dense_calls).
Proof.
  pose proof (proj1 int_sized_dense_after_calls) as Hc.
  split.
  - apply (NestedAppend_trajectory_ids (Id:=NodeId) (-1) "x" _);
      [unfold is_int, INT_MIN, INT_MAX; lia | exact Hc | by left].
  - apply (NestedAppend_trajectory_ids (Id:=NodeId) (-2) "x" _);
      [unfold is_int, INT_MIN, INT_MAX; lia | exact Hc | lia].
Defined.

(** ** The two containers under appends *)

Section Agreement.
Context {Id : Type} `{IdType Id} {ValueType : Type}.
Implicit Types (c : NestedVectorsById ValueType) (m : MapById ValueType).
Implicit Types (t i k : Z) (v : ValueType).

Lemma agree_run_from_0 c m t :
  agree c m → run_from_0 (positions m t) (vec_size (nested_row c t)).
Proof. intros Hag i. by rewrite Hag, vec_get_is_Some. Qed.

(** One append on both sides. *)
Lemma agree_Append t v c m k :
  0 ≤ t < INT_MAX → vec_size (nested_data_ c) ≤ INT_MAX →
  (∀ t', vec_size (nested_row c t') ≤ k) → k < INT_MAX →
  (∀ t', appendable m t' = true) → agree c m →
  ∃ c' m',
    NestedAppend (Id:=Id) t v c
    = VReturn (make_id t (vec_size (nested_row c t))) c'
    ∧ Append (Id:=Id) t v m
      = Return (make_id t (vec_size (nested_row c t))) m'
    ∧ vec_size (nested_data_ c') ≤ INT_MAX
    ∧ (∀ t', vec_size (nested_row c' t') ≤ k + 1)
    ∧ (∀ t', appendable m' t' = true)
    ∧ agree c' m'.
Proof.
  intros Ht Hn Hrows Hk Hap Hag.
  pose proof (nested_row_size_nonneg c t) as Hlen0.
  pose proof (Hrows t) as Hlen.
  destruct (NestedAppend_spec (Id:=Id) t v c Ht Hn)
    as (c' & Happ & Hsize & _ & Hrow).
  rewrite int_of_size_small in Happ by lia.
  assert (next_position (positions m t) (vec_size (nested_row c t))) as Hnext.
  { apply topped_next_position; [|lia..].
    by apply run_from_0_topped, agree_run_from_0. }
  destruct (Append_next (Id:=Id) t v m _ (proj1 Ht) (Hap t) Hnext)
    as [Happ' _].
  eexists c', _. split; [exact Happ|]. split; [exact Happ'|].
  split; [lia|]. split; [|split].
  - intros t'. rewrite Hrow. case_decide.
    + rewrite vec_size_app. lia.
    + specialize (Hrows t'). lia.
  - intros t'. rewrite appendable_store. by case_decide.
  - intros t' i. rewrite positions_store, Hrow.
    destruct (decide (t = t')) as [<-|Hne].
    + rewrite decide_True by done. simpl.
      rewrite vec_get_push_back, lookup_insert.
      destruct (decide (vec_size (nested_row c t) = i)) as [<-|Hi].
      * by rewrite decide_True.
      * rewrite decide_False by done. apply Hag.
    + rewrite decide_False by done. apply Hag.
Qed.

(** A row of appends on both sides. *)
Lemma agree_run xs : ∀ c m k,
  Forall (λ x : Z * ValueType, 0 ≤ x.1 < INT_MAX) xs →
  vec_size (nested_data_ c) ≤ INT_MAX →
  (∀ t', vec_size (nested_row c t') ≤ k) →
  k + Z.of_nat (length xs) ≤ INT_MAX →
  (∀ t', appendable m t' = true) → agree c m →
  ∃ (ids : list Id) c' m',
    nested_run xs c = VReturn ids c'
    ∧ run (as_calls xs) m = Return (Some <$> ids) m'
    ∧ int_sized c' ∧ agree c' m'.
Proof.
  induction xs as [|[t v] xs IH]; intros c m k Hts Hn Hrows Hfit Hap Hag.
  { exists [], c, m. repeat split; try done.
    intros t'. specialize (Hrows t'). simpl in Hfit. lia. }
  apply Forall_cons in Hts as [Ht Hts]. simpl in Ht, Hfit.
  destruct (agree_Append t v c m k Ht Hn Hrows) as
    (c1 & m1 & Happ & Happ' & Hn1 & Hrows1 & Hap1 & Hag1); [lia | done..|].
  destruct (IH c1 m1 (k + 1) Hts Hn1 Hrows1) as
    (ids & c' & m' & Hrun & Hrun' & Hsized & Hag'); [lia | done..|].
  exists (make_id t (vec_size (nested_row c t)) :: ids), c', m'.
  split; [|split; [|done]].
  - cbn [nested_run]. by rewrite Happ, Hrun.
  - unfold as_calls in *. rewrite fmap_cons. cbn [run perform fst snd].
    rewrite Happ'. cbn [bind]. rewrite Hrun'. done.
Qed.

Lemma agree_empty : agree (@empty_nested ValueType) empty_map.
Proof.
  intros t i. unfold positions, empty_map, nested_row, empty_nested. simpl.
  rewrite lookup_empty. simpl. rewrite lookup_empty.
  symmetry. apply vec_get_None. unfold vec_get, vec_size. simpl.
  case_decide; simpl; unfold vec_size; simpl; lia.
Qed.
End Agreement.

(** X5: on fresh containers, the same appends (trajectory ids in
    [0 .. INT_MAX - 1], at most [INT_MAX] of them) return the same
    identifiers from [NestedVectorsById::Append] and from
    [MapById::Append], and afterwards the two containers hold the same
    values: [at] of one returns a value for an identifier of [int] fields
    exactly when [at] of the other returns it. *)
Theorem dense_and_sparse_appends_agree {Id} `{IdType Id} {ValueType}
    (xs : list (Z * ValueType)) :
  Forall (λ x, 0 ≤ x.1 < INT_MAX) xs →
  Z.of_nat (length xs) ≤ INT_MAX →
  ∃ (ids : list Id) c m,
    nested_run xs empty_nested = VReturn ids c
    ∧ run (as_calls xs) empty_map = Return (Some <$> ids) m
    ∧ (∀ id : Id, entry m id = nested_entry c id)
    ∧ ∀ (id : Id) v,
        is_int (id_trajectory id) → is_int (GetIndex id) →
        (at_ id m = Return v m ↔ nested_at id c = VReturn v c).
Proof.
  intros Hts Hlen.
  destruct (agree_run (Id:=Id) xs empty_nested empty_map 0 Hts)
    as (ids & c & m & Hrun & Hrun' & Hsized & Hag).
  - vm_compute. discriminate.
  - intros t'. unfold nested_row, empty_nested, vec_get. simpl.
    case_decide; vm_compute; discriminate.
  - lia.
  - intros t'. unfold appendable, flag, empty_map. simpl.
    by rewrite lookup_empty.
  - apply agree_empty.
  - exists ids, c, m. split; [done|]. split; [done|].
    assert (∀ id : Id, entry m id = nested_entry c id) as Hentry.
    { intros id. rewrite entry_positions. apply Hag. }
    split; [done|]. intros id v Ht Hi.
    rewrite (nested_at_entry id c Ht Hi Hsized), <-Hentry. split.
    + intros Hat. apply at_Return in Hat. by rewrite Hat.
    + destruct (entry m id) as [v'|] eqn:He; [|done].
      intros [= ->]. by apply at_entry.
Qed.

Lemma dense_and_sparse_appends_agree_witness :
  ∃ (ids : list NodeId) c m,
    nested_run dense_calls empty_nested = VReturn ids c
    ∧ run (as_calls dense_calls) empty_map = Return (Some <$> ids) m
    ∧ entry m (MkNodeId 2 1) = nested_entry c (MkNodeId 2 1).
Proof.
  destruct (dense_and_sparse_appends_agree (Id:=NodeId) dense_calls)
    as (ids & c & m & Hd & Hs & Hentry & _).
  - repeat constructor; simpl; unfold INT_MAX; lia.
  - vm_compute. discriminate.
  - exists ids, c, m. split; [exact Hd|]. split; [exact Hs|]. apply Hentry.
Defined.

(** * More on the sparse container *)

(** X6: [MapById::empty] returns, and returns true exactly when no
    identifier has an entry, however many trajectories without entries
    the container has. *)
Theorem empty_iff_no_entries {Id} `{IdType Id} {DataType}
    (m : MapById DataType) :
  ∃ b it, empty_ m = Return b it
          ∧ (b = true ↔ ∀ id : Id, entry m id = None).
Proof.
  unfold empty_, begin_, end_.
  destruct (construct_spec (Id:=Id) m) as (b & -> & Hpos & Hrem).
  destruct (EndIterator_spec m) as (e & -> & He). cbn [bind].
  eexists _, _. split; [done|].
  pose proof (iter_neqb_end b e He) as Hneq. unfold iter_neqb in Hneq.
  assert (iter_eqb b e = at_end (current_trajectory_ b)) as ->.
  { destruct (iter_eqb b e), (at_end (current_trajectory_ b));
      simpl in Hneq; congruence. }
  assert (at_end (current_trajectory_ b) = true ↔ listing (Id:=Id) m = [])
    as ->.
  { rewrite <-Hrem. unfold remaining.
    destruct Hpos as [Hend | Hdata].
    - rewrite Hend. done.
    - destruct (current_trajectory_ b) as [|[t tr] rest]; [done|].
      destruct (current_data_ b); [done|]. simpl. split; done. }
  split.
  - intros Hnil id. destruct (entry m id) as [d|] eqn:He'; [|done].
    apply elem_of_listing in He'. rewrite Hnil in He'.
    by apply not_elem_of_nil in He'.
  - intros Hnone. destruct (listing (Id:=Id) m) as [|[i d] l] eqn:Hl; [done|].
    assert (entry m i = Some d) as Hin.
    { apply elem_of_listing. rewrite Hl. apply list_elem_of_here. }
    by rewrite Hnone in Hin.
Qed.

(** X7: [MapById::Append] fails its checks exactly for a negative
    trajectory id or a cleared flag, and then the container is as before
    the call: the trajectory that [trajectories_[trajectory_id]] creates
    is never left behind by a failed call, because a trajectory just
    created has its flag set.  [Append] never raises
    [std::out_of_range]. *)
Theorem Append_failure_keeps_container {Id} `{IdType Id} {DataType}
    (t : Z) (d : DataType) (m : MapById DataType) :
  (Append (Id:=Id) t d m = CheckFailed m ↔ t < 0 ∨ flag m t = Some false)
  ∧ (∀ m', Append (Id:=Id) t d m = CheckFailed m' → m' = m)
  ∧ (∀ m', Append (Id:=Id) t d m ≠ OutOfRange m').
Proof.
  destruct (decide (t < 0)) as [Hneg|Hpos].
  { rewrite Append_negative by done.
    split; [split; [by left | done]|]. split; [by intros m' [= <-] | done]. }
  destruct (appendable m t) eqn:Hap; cycle 1.
  { apply appendable_false in Hap. rewrite Append_locked by done.
    split; [split; [by right | done]|]. split; [by intros m' [= <-] | done]. }
  assert (flag m t ≠ Some false) as Hflag.
  { intros Hf. apply appendable_false in Hf. congruence. }
  destruct (next_or_saturated (positions m t)) as [[p Hp] | Hsat].
  - destruct (Append_next (Id:=Id) t d m p) as [-> _]; [lia | done..|].
    split; [split; [done | intros [?|?]; done]|]. split; done.
  - rewrite Append_saturated by (done || lia).
    split; [split; [done | intros [?|?]; done]|]. split; done.
Qed.

Lemma Append_failure_keeps_container_witness :
  Append (Id:=NodeId) 0 "c" (after cut_calls) = CheckFailed (after cut_calls)
  ∧ Append (Id:=NodeId) (-3) "c" (after cut_calls)
    = CheckFailed (after cut_calls).
Proof.
  split.
  - apply (Append_failure_keeps_container (Id:=NodeId) 0 "c" (after cut_calls)).
    right. vm_compute. reflexivity.
  - apply (Append_failure_keeps_container (Id:=NodeId) (-3) "c"
             (after cut_calls)).
    left. lia.
Defined.

Section Lifecycle.
Context {Id : Type} `{IdType Id} {DataType : Type}.
Implicit Types (m : MapById DataType) (t : Z).
Implicit Types (c : call Id DataType) (cs : list (call Id DataType)).

(** Every returning call rewrites the trajectory it works on. *)
Lemma perform_store c m r m' :
  perform c m = Return r m' →
  ∃ tr, m' = store (call_trajectory c) tr m.
Proof.
  intros Hp. apply perform_Return in Hp.
  destruct c as [t d | id d | id]; simpl.
  - destruct Hp as (id & Hp & _).
    apply Append_Return in Hp as (_ & _ & p & _ & _ & _ & ->). by eexists.
  - destruct Hp as [Hp _]. apply Insert_Return in Hp as [_ ->]. by eexists.
  - destruct Hp as [Hp _]. apply Trim_Return in Hp as [_ ->]. by eexists.
Qed.

Lemma perform_exists c m r m' t :
  perform c m = Return r m' →
  is_Some (flag m t) ∨ call_trajectory c = t → is_Some (flag m' t).
Proof.
  intros Hp Hor. destruct (perform_store _ _ _ _ Hp) as [tr ->].
  rewrite flag_store. case_decide as Ht; [by eexists|].
  by destruct Hor.
Qed.
End Lifecycle.

(** X8: no call destroys a trajectory.  After a returning run of
    [Append], [Insert] and [Trim] calls, every trajectory that existed
    before or that one of the calls worked on exists, also when all its
    entries have been trimmed. *)
Theorem trajectories_persist {Id} `{IdType Id} {DataType}
    (cs : list (call Id DataType)) (m : MapById DataType) rs m' (t : Z) :
  run cs m = Return rs m' →
  is_Some (flag m t) ∨ (∃ c, c ∈ cs ∧ call_trajectory c = t) →
  is_Some (flag m' t).
Proof.
  revert m rs. induction cs as [|c cs IH]; intros m rs Hrun Hor.
  - simpl in Hrun. simplify_eq. destruct Hor as [?|(c & Hin & _)]; [done|].
    by apply not_elem_of_nil in Hin.
  - apply run_cons_Return in Hrun as (r & m1 & rs' & Hp & Hrun & _).
    apply (IH m1 rs' Hrun).
    destruct Hor as [Hex | (c' & Hin & Hc')].
    + left. eapply perform_exists; [done | by left].
    + apply elem_of_cons in Hin as [-> | Hin].
      * left. eapply perform_exists; [done | by right].
      * right. by exists c'.
Qed.

Lemma trajectories_persist_witness :
  flag (after sparse_calls) 1 = Some false
  ∧ positions (after sparse_calls) 1 = ∅
  ∧ is_Some (flag (after sparse_calls) 1).
Proof.
  split; [vm_compute; reflexivity|]. split; [vm_compute; reflexivity|].
  apply (trajectories_persist sparse_calls empty_map
           [Some (MkNodeId 0 0); Some (MkNodeId 0 1); Some (MkNodeId 1 0);
            Some (MkNodeId 2 0); None]).
  - vm_compute. reflexivity.
  - right. exists (CallTrim (MkNodeId 1 0)). split; [|reflexivity].
    unfold sparse_calls. do 4 apply list_elem_of_further. apply list_elem_of_here.
Defined.

Lemma empty_iff_no_entries_witness :
  is_Some (flag (after emptied_calls) 1)
  ∧ ∃ it, empty_ (after emptied_calls) = Return true it.
Proof.
  split; [vm_compute; by eexists|].
  destruct (empty_iff_no_entries (Id:=NodeId) (after emptied_calls))
    as (b & it & Hempty & Hb).
  exists it. rewrite Hempty. f_equal. apply Hb.
  intros [t i]. rewrite entry_positions. simpl.
  destruct (decide (t = 1)) as [->|Hne].
  - replace (positions (after emptied_calls) 1) with (∅ : gmap Z string)
      by (vm_compute; reflexivity).
    apply lookup_empty.
  - unfold positions.
    replace (trajectories_ (after emptied_calls))
      with ({[ 1 := {| can_append_ := false; data_ := ∅ |} ]}
            : gmap Z (MapByIndex string)) by (vm_compute; reflexivity).
    rewrite lookup_singleton_ne by done. apply lookup_empty.
Defined.

Section CallOrder.
Context {Id : Type} `{IdType Id} {DataType : Type}.
Implicit Types (m : MapById DataType) (t n : Z).
Implicit Types (c : call Id DataType) (cs : list (call Id DataType)).

Lemma returned_to_cons_None t (rs : list (option Id)) :
  returned_to t (None :: rs) = returned_to t rs.
Proof. done. Qed.

Lemma returned_to_cons_Some t (i : Id) (rs : list (option Id)) :
  returned_to t (Some i :: rs)
  = if decide (id_trajectory i = t) then i :: returned_to t rs
    else returned_to t rs.
Proof.
  unfold returned_to. cbn [omap list_omap]. rewrite filter_cons.
  by case_decide.
Qed.

(** From a container in which trajectory [t], as long as its flag is set,
    is topped at [n], the appends to [t] return [n], [n + 1], ... *)
Lemma run_returned_to cs : ∀ m rs m' t n,
  run cs m = Return rs m' → 0 ≤ n →
  (appendable m t = true → topped (positions m t) n) →
  returned_to t rs = make_id t <$> seqZ n (appends_to t cs).
Proof.
  induction cs as [|c cs IH]; intros m rs m' t n Hrun Hn Htop.
  { simpl in Hrun. simplify_eq. done. }
  apply run_cons_Return in Hrun as (r & m1 & rs' & Hp & Hrun & ->).
  apply perform_Return in Hp.
  destruct c as [t0 d | id d | id]; cbn [appends_to].
  - destruct Hp as (id & Hp & ->).
    apply Append_Return in Hp as (_ & Hap & p & Hnext & -> & _ & ->).
    rewrite returned_to_cons_Some, id_trajectory_make.
    destruct (decide (t0 = t)) as [->|Hne].
    + specialize (Htop Hap).
      pose proof (topped_next _ _ _ Htop Hn Hnext) as ->.
      pose proof (appends_to_nonneg t cs) as Hcount.
      rewrite seqZ_cons by lia. rewrite fmap_cons. f_equal.
      replace (Z.pred (1 + appends_to t cs)) with (appends_to t cs) by lia.
      apply (IH _ _ _ _ _ Hrun); [lia|].
      intros _. rewrite positions_store, decide_True by done. simpl.
      unfold Z.succ. by apply topped_insert.
    + rewrite Z.add_0_l. apply (IH _ _ _ _ _ Hrun Hn).
      rewrite appendable_store, positions_store.
      by rewrite !decide_False by done.
  - destruct Hp as [Hp ->]. apply Insert_Return in Hp as [_ ->].
    rewrite returned_to_cons_None. apply (IH _ _ _ _ _ Hrun Hn).
    rewrite appendable_store, positions_store.
    case_decide; [done | done].
  - destruct Hp as [Hp ->]. apply Trim_Return in Hp as [_ ->].
    rewrite returned_to_cons_None. apply (IH _ _ _ _ _ Hrun Hn).
    rewrite appendable_store, positions_store.
    destruct (decide (id_trajectory id = t)) as [<-|Hne]; [|done].
    simpl. case_decide as Hl; [done|].
    intros Hap. apply topped_delete; [by apply Htop | done].
Qed.
End CallOrder.

(** X9: in a returning run of [Append], [Insert] and [Trim] calls on the
    fresh container, the appends to one trajectory return the positions
    0, 1, 2, ... in call order, whatever calls on other trajectories and
    whatever trims of this one come in between; so no [Append] returns an
    identifier twice. *)
Theorem Append_positions_in_call_order {Id} `{IdType Id} {DataType}
    (cs : list (call Id DataType)) rs (m : MapById DataType) (t : Z) :
  run cs empty_map = Return rs m →
  returned_to t rs = make_id t <$> seqZ 0 (appends_to t cs)
  ∧ NoDup (returned_to t rs).
Proof.
  intros Hrun.
  assert (returned_to t rs = make_id t <$> seqZ 0 (appends_to t cs)) as Heq.
  { apply (run_returned_to cs empty_map rs m t 0 Hrun); [lia|].
    intros _. apply topped_empty_map. }
  split; [done|]. rewrite Heq. apply NoDup_fmap_2; [|apply NoDup_seqZ].
  intros i j Hij. apply (f_equal GetIndex) in Hij.
  by rewrite !GetIndex_make in Hij.
Qed.

Lemma Append_positions_in_call_order_witness :
  ∃ rs m, run mixed_calls empty_map = Return rs m
          ∧ returned_to 0 rs = [MkNodeId 0 0; MkNodeId 0 1; MkNodeId 0 2].
Proof.
  destruct (run mixed_calls empty_map) as [rs m| | |] eqn:Hrun;
    try (vm_compute in Hrun; discriminate).
  destruct (Append_positions_in_call_order mixed_calls rs m 0 Hrun)
    as [Heq _].
  exists rs, m. split; [reflexivity|]. rewrite Heq. vm_compute. reflexivity.
Defined.

(** X10: the identifier that [Append] returned is the trailing one of its
    trajectory, so a [Trim] of it returns, puts every entry back to what
    it was before the append, and clears the flag: a further [Append] to
    the trajectory fails its check. *)
Theorem Append_then_Trim {Id} `{IdType Id} {DataType}
    (t : Z) (d : DataType) (m m1 : MapById DataType) (id : Id) :
  Append t d m = Return id m1 →
  trailing m1 id
  ∧ ∃ m2, Trim id m1 = Return tt m2
      ∧ (∀ id' : Id, entry m2 id' = entry m id')
      ∧ flag m2 t = Some false
      ∧ ∀ d', Append (Id:=Id) t d' m2 = CheckFailed m2.
Proof.
  intros Happ.
  apply Append_Return in Happ as (Ht & Hap & p & Hnext & -> & Hfree & ->).
  set (ps := positions m t) in *.
  set (m1 := store t {| can_append_ := true; data_ := <[p := d]> ps |} m).
  assert (positions m1 t = <[p := d]> ps) as Hps1.
  { unfold m1. by rewrite positions_store, decide_True. }
  assert (trailing m1 (make_id t p)) as Htrail.
  { unfold trailing. rewrite id_trajectory_make, GetIndex_make, Hps1.
    apply largest_key_insert_above. intros k' Hk'.
    destruct Hnext as [[He _] | (k & [_ Hmax] & _ & ->)].
    - rewrite He in Hk'. destruct Hk' as [? Hk'].
      by rewrite lookup_empty in Hk'.
    - specialize (Hmax _ Hk'). lia. }
  split; [done|].
  assert (entry m1 (make_id t p) = Some d) as Hentry.
  { rewrite entry_positions, id_trajectory_make, GetIndex_make, Hps1.
    apply lookup_insert_eq. }
  rewrite (Trim_entry _ _ _ Hentry).
  unfold trailing in Htrail. rewrite decide_True by done.
  rewrite id_trajectory_make, GetIndex_make, Hps1.
  rewrite delete_insert_eq, delete_id by done.
  eexists. split; [done|].
  assert (flag (store t {| can_append_ := false; data_ := ps |} m1) t
          = Some false) as Hflag.
  { by rewrite flag_store, decide_True. }
  split; [|split; [done|]].
  - intros id'. rewrite entry_store. case_decide as Hid.
    + simpl. rewrite entry_positions, <-Hid. done.
    + unfold m1. rewrite entry_store. by rewrite decide_False.
  - intros d'. by apply Append_locked.
Qed.

Lemma Append_then_Trim_witness :
  ∃ m1 m2, Append 0 "c" (after gap_calls) = Return (MkNodeId 0 2) m1
    ∧ Trim (MkNodeId 0 2) m1 = Return tt m2
    ∧ entry m2 (MkNodeId 0 1) = Some "b"
    ∧ Append (Id:=NodeId) 0 "d" m2 = CheckFailed m2.
Proof.
  destruct (Append 0 "c" (after gap_calls)) as [i m1| | |] eqn:Happ;
    try (vm_compute in Happ; discriminate).
  assert (i = MkNodeId 0 2) as ->.
  { vm_compute in Happ. by injection Happ as <- _. }
  destruct (Append_then_Trim 0 "c" (after gap_calls) m1 (MkNodeId 0 2) Happ)
    as (_ & m2 & Htrim & Hentries & _ & Hlock).
  exists m1, m2. split; [reflexivity|]. split; [exact Htrim|].
  split; [|apply Hlock]. rewrite Hentries. vm_compute. reflexivity.
Defined.

Section StoreSame.
Context {Id : Type} `{IdType Id} {DataType : Type}.
Implicit Types (m : MapById DataType) (t : Z) (tr : MapByIndex DataType).

Lemma positions_store_same t tr m : positions (store t tr m) t = data_ tr.
Proof. rewrite positions_store. by destruct (decide (t = t)). Qed.

Lemma appendable_store_same t tr m :
  appendable (store t tr m) t = can_append_ tr.
Proof. rewrite appendable_store. by destruct (decide (t = t)). Qed.

Lemma flag_store_same t tr m : flag (store t tr m) t = Some (can_append_ tr).
Proof. rewrite flag_store. by destruct (decide (t = t)). Qed.

Lemma entry_store_same t tr m (id : Id) :
  id_trajectory id = t → entry (store t tr m) id = data_ tr !! GetIndex id.
Proof.
  intros <-. rewrite entry_store.
  by destruct (decide (id_trajectory id = id_trajectory id)).
Qed.

Lemma entry_store_ne t tr m (id : Id) :
  id_trajectory id ≠ t → entry (store t tr m) id = entry m id.
Proof.
  intros Hne. rewrite entry_store.
  by destruct (decide (t = id_trajectory id)).
Qed.
End StoreSame.

(** X11: [Trim] and [Insert] of one identifier undo each other on the
    entries, in either order.  Trimming a stored entry and inserting the
    same data again returns twice and leaves every entry as it was;
    inserting at a free identifier and trimming it returns twice and
    leaves every entry as it was.  Either way the flag of the trajectory
    ends cleared. *)
Theorem Trim_and_Insert_undo {Id} `{IdType Id} {DataType}
    (id : Id) (d : DataType) (m : MapById DataType) :
  (entry m id = Some d →
   ∃ m1 m2, Trim id m = Return tt m1 ∧ Insert id d m1 = Return tt m2
     ∧ (∀ id', entry m2 id' = entry m id')
     ∧ flag m2 (id_trajectory id) = Some false)
  ∧ (entry m id = None →
     ∃ m1 m2, Insert id d m = Return tt m1 ∧ Trim id m1 = Return tt m2
       ∧ (∀ id', entry m2 id' = entry m id')
       ∧ flag m2 (id_trajectory id) = Some false).
Proof.
  split.
  - intros Hd.
    destruct (Trim id m) as [[] m1| | |] eqn:Htrim;
      try (by rewrite (Trim_entry _ _ _ Hd) in Htrim).
    destruct (Trim_Return _ _ _ _ Htrim) as [_ Hm1].
    assert (positions m1 (id_trajectory id)
            = delete (GetIndex id) (positions m (id_trajectory id))) as Hps1.
    { rewrite Hm1. apply positions_store_same. }
    assert (entry m1 id = None) as Hfree.
    { rewrite entry_positions, Hps1. apply lookup_delete_eq. }
    exists m1. eexists. split; [done|].
    split; [by apply Insert_fresh|]. split.
    + intros id'.
      destruct (decide (id_trajectory id' = id_trajectory id)) as [Hid|Hid].
      * rewrite entry_store_same by done. simpl.
        rewrite Hps1, insert_delete_eq, insert_id.
        -- by rewrite (entry_positions m id'), Hid.
        -- by rewrite entry_positions in Hd.
      * rewrite entry_store_ne, Hm1, entry_store_ne by done. done.
    + apply flag_store_same.
  - intros Hfree.
    destruct (Insert id d m) as [[] m1| | |] eqn:Hins;
      try (by rewrite (Insert_fresh _ _ _ Hfree) in Hins).
    destruct (Insert_Return _ _ _ _ _ Hins) as [_ Hm1].
    assert (positions m1 (id_trajectory id)
            = <[GetIndex id := d]> (positions m (id_trajectory id))) as Hps1.
    { rewrite Hm1. apply positions_store_same. }
    assert (entry m1 id = Some d) as Hd.
    { rewrite entry_positions, Hps1. apply lookup_insert_eq. }
    assert (appendable m1 (id_trajectory id) = false) as Hap1.
    { rewrite Hm1. apply appendable_store_same. }
    exists m1. eexists. split; [done|].
    split; [by apply (Trim_entry _ _ d)|]. split.
    + intros id'.
      destruct (decide (id_trajectory id' = id_trajectory id)) as [Hid|Hid].
      * rewrite entry_store_same by done. simpl.
        rewrite Hps1, delete_insert_eq, delete_id.
        -- by rewrite (entry_positions m id'), Hid.
        -- by rewrite entry_positions in Hfree.
      * rewrite entry_store_ne, Hm1, entry_store_ne by done. done.
    + rewrite flag_store_same. simpl. rewrite Hap1.
      by destruct (decide _).
Qed.

Lemma Trim_and_Insert_undo_witness :
  (∃ m1 m2, Trim (MkNodeId 0 1) (after gap_calls) = Return tt m1
     ∧ Insert (MkNodeId 0 1) "b" m1 = Return tt m2
     ∧ entry m2 (MkNodeId 0 1) = Some "b")
  ∧ (∃ m1 m2, Insert (MkNodeId 0 0) "z" (after gap_calls) = Return tt m1
       ∧ Trim (MkNodeId 0 0) m1 = Return tt m2
       ∧ entry m2 (MkNodeId 0 0) = None).
Proof.
  split.
  - destruct (Trim_and_Insert_undo (MkNodeId 0 1) "b" (after gap_calls))
      as [Hundo _].
    destruct Hundo as (m1 & m2 & Ht & Hi & Hentries & _);
      [vm_compute; reflexivity|].
    exists m1, m2. split; [exact Ht|]. split; [exact Hi|].
    rewrite Hentries. vm_compute. reflexivity.
  - destruct (Trim_and_Insert_undo (MkNodeId 0 0) "z" (after gap_calls))
      as [_ Hundo].
    destruct Hundo as (m1 & m2 & Hi & Ht & Hentries & _);
      [vm_compute; reflexivity|].
    exists m1, m2. split; [exact Hi|]. split; [exact Ht|].
    rewrite Hentries. vm_compute. reflexivity.
Defined.

(** * More on the iterator *)

Section IteratorSteps.
Context {Id : Type} `{IdType Id} {DataType : Type}.
Implicit Types (m : MapById DataType) (it a b : ConstIterator DataType).
Implicit Types (trajs : list (Z * MapByIndex DataType)).

Lemma iterator_of_positioned m it : iterator_of m it → positioned it.
Proof.
  intros [_ Hdata]. unfold positioned.
  destruct (current_trajectory_ it) as [|[t tr] rest]; [by left|].
  right. apply Hdata.
Qed.

Lemma advance_loop_iterator_of m trajs : ∀ cur,
  trajs `suffix_of` items (trajectories_ m) →
  match trajs with
  | [] => True
  | (_, tr) :: _ => cur `suffix_of` items (data_ tr)
  end →
  iterator_of m (advance_loop trajs cur).
Proof.
  induction trajs as [|[t tr] rest IH]; intros cur Hsuf Hcur.
  - destruct cur; simpl; (split; [apply suffix_nil | done]).
  - destruct cur as [|x cur]; simpl.
    + destruct rest as [|[t' tr'] rest'].
      * split; [apply suffix_nil | done].
      * apply IH; [by eapply suffix_cons_l | done].
    + split; [done|]. simpl. done.
Qed.

Lemma construct_iterator_of m b :
  construct m = Return tt b → iterator_of m b.
Proof.
  unfold construct.
  destruct (items (trajectories_ m)) as [|[t tr] rest] eqn:Hitems.
  - intros [= <-]. split; [apply suffix_nil | done].
  - unfold AdvanceToValidDataIterator.
    cbn [current_trajectory_ current_data_ at_end]. intros Heq.
    replace b with (advance_loop ((t, tr) :: rest) (items (data_ tr)))
      by congruence.
    apply advance_loop_iterator_of; [by rewrite Hitems | done].
Qed.

Lemma EndIterator_iterator_of m e :
  EndIterator m = Return tt e → iterator_of m e.
Proof.
  unfold EndIterator. destruct (construct m) as [[] it| | |]; [|done..].
  cbn [bind]. intros [= <-]. split; [apply suffix_nil | done].
Qed.

Lemma incr_iterator_of m it it' :
  iterator_of m it → incr it = Return tt it' → iterator_of m it'.
Proof.
  intros [Htraj Hdata]. unfold incr.
  destruct (current_trajectory_ it) as [|[t tr] rest] eqn:Hcur; [done|].
  destruct Hdata as [_ Hsuf].
  destruct (current_data_ it) as [|x cur]; [done|].
  unfold AdvanceToValidDataIterator.
  cbn [current_trajectory_ current_data_ at_end]. intros Heq.
  replace it' with (advance_loop ((t, tr) :: rest) cur) by congruence.
  apply advance_loop_iterator_of; [done|]. by eapply suffix_cons_l.
Qed.

Lemma suffixes_same_length {A} (l1 l2 l : list A) :
  l1 `suffix_of` l → l2 `suffix_of` l → length l1 = length l2 → l1 = l2.
Proof.
  intros H1 H2 Hlen.
  destruct (suffix_weak_total _ _ _ H1 H2) as [Hs | Hs].
  - apply suffix_length_eq; [done | lia].
  - symmetry. apply suffix_length_eq; [done | lia].
Qed.

Lemma suffixes_shorter {A} (l1 l2 l : list A) x :
  x :: l1 `suffix_of` l → l2 `suffix_of` l →
  (length l2 < length (x :: l1))%nat → l2 `suffix_of` l1.
Proof.
  intros H1 H2 Hlen.
  destruct (suffix_weak_total _ _ _ H1 H2) as [Hs | Hs].
  - apply suffix_length in Hs. lia.
  - destruct l2 as [|y l2]; [apply suffix_nil|].
    apply suffix_cons_inv in Hs as [Heq | Hs]; [|done].
    rewrite Heq in Hlen. lia.
Qed.

Lemma entries_of_suffix trajs1 trajs2 :
  trajs1 `suffix_of` trajs2 →
  (length (entries_of (Id:=Id) trajs1)
   ≤ length (entries_of (Id:=Id) trajs2))%nat.
Proof.
  intros [k ->]. unfold entries_of. rewrite bind_app, length_app. lia.
Qed.

(** An iterator of [m] has at most the entries of its trajectories left. *)
Lemma remaining_le m it :
  iterator_of m it →
  (length (remaining (Id:=Id) it)
   ≤ length (entries_of (Id:=Id) (current_trajectory_ it)))%nat.
Proof.
  intros [_ Hdata]. unfold remaining, entries_of.
  destruct (current_trajectory_ it) as [|[t tr] rest]; [done|].
  destruct Hdata as [_ Hsuf]. apply suffix_length in Hsuf.
  rewrite bind_cons, !length_app, !length_refs. simpl. lia.
Qed.

(** The iterator that is further from the end of the trajectories has
    more left to visit. *)
Lemma remaining_lt m a b :
  iterator_of m a → iterator_of m b →
  (length (current_trajectory_ b) < length (current_trajectory_ a))%nat →
  (length (remaining (Id:=Id) b) < length (remaining (Id:=Id) a))%nat.
Proof.
  intros Ha Hb Hlen. pose proof (remaining_le m b Hb) as Hle.
  destruct Ha as [Hsa Hda], Hb as [Hsb _].
  destruct (current_trajectory_ a) as [|[t tr] rest] eqn:Hcur;
    [simpl in Hlen; lia|].
  pose proof (suffixes_shorter _ _ _ _ Hsa Hsb Hlen) as Hsuf.
  apply entries_of_suffix in Hsuf.
  assert (length (remaining (Id:=Id) a)
          = (length (current_data_ a)
             + length (entries_of (Id:=Id) rest))%nat) as ->.
  { unfold remaining, entries_of. rewrite Hcur.
    by rewrite length_app, length_refs. }
  destruct Hda as [Hne _].
  destruct (current_data_ a); [done|]. simpl. lia.
Qed.

Lemma iter_eqb_same_remaining m a b :
  iterator_of m a → iterator_of m b →
  iter_eqb a b = true ↔ remaining (Id:=Id) a = remaining (Id:=Id) b.
Proof.
  intros Ha Hb.
  destruct (decide (length (current_trajectory_ a)
                    = length (current_trajectory_ b))) as [Hlen | Hlen].
  - assert (current_trajectory_ a = current_trajectory_ b) as Heq.
    { eapply suffixes_same_length; [apply Ha | apply Hb | done]. }
    destruct Ha as [_ Hda], Hb as [_ Hdb].
    unfold iter_eqb, remaining, same_position. rewrite <-Heq in *.
    rewrite Nat.eqb_refl.
    destruct (current_trajectory_ a) as [|[t tr] rest]; [done|].
    simpl. destruct Hda as [_ Hsa], Hdb as [_ Hsb].
    rewrite Nat.eqb_eq. split.
    + intros Hd. by rewrite (suffixes_same_length _ _ _ Hsa Hsb Hd).
    + intros Hrem. apply (f_equal length) in Hrem.
      rewrite !length_app, !length_refs in Hrem. lia.
  - assert (iter_eqb a b = false) as ->.
    { unfold iter_eqb, same_position.
      apply Nat.eqb_neq in Hlen. rewrite Hlen.
      by destruct (at_end _ || at_end _). }
    split; [done|]. intros Hrem. apply (f_equal length) in Hrem.
    destruct (decide (length (current_trajectory_ b)
                      < length (current_trajectory_ a))%nat) as [Hlt|Hge].
    + pose proof (remaining_lt m a b Ha Hb Hlt). lia.
    + assert (length (current_trajectory_ a)
              < length (current_trajectory_ b))%nat as Hlt by lia.
      pose proof (remaining_lt m b a Hb Ha Hlt). lia.
Qed.
End IteratorSteps.

(** X12: how the iterator moves.  [begin()] returns an iterator that has
    all entries of the container left, in ascending order, and [end()]
    one that has none left.  At an iterator with nothing left,
    [operator*] and [operator++] fail their check; otherwise [operator*]
    returns the first entry left and changes nothing, and [operator++]
    returns an iterator that has exactly the other entries left. *)
Theorem iterator_steps {Id} `{IdType Id} {DataType} (m : MapById DataType) :
  (∃ b, begin_ m = Return tt b ∧ positioned b
        ∧ remaining (Id:=Id) b = listing m)
  ∧ (∃ e, end_ m = Return tt e ∧ positioned e ∧ remaining (Id:=Id) e = [])
  ∧ ∀ it : ConstIterator DataType, positioned it →
      match remaining (Id:=Id) it with
      | [] => deref (Id:=Id) it = CheckFailed it ∧ incr it = CheckFailed it
      | r :: rest =>
          deref it = Return r it
          ∧ ∃ it', incr it = Return tt it' ∧ positioned it'
                   ∧ remaining it' = rest
      end.
Proof.
  split; [apply construct_spec|]. split.
  { destruct (EndIterator_spec m) as (e & He & Hend).
    exists e. split; [done|]. split; [by left|].
    unfold remaining. by rewrite Hend. }
  intros [[|[t tr] rest] cur] Hpos; [done|].
  destruct Hpos as [Hpos | Hpos]; [done|]. simpl in Hpos.
  destruct cur as [|[k v] cur]; [done|].
  destruct (advance_loop_spec (Id:=Id) ((t, tr) :: rest) cur) as [Hpos' Hrem];
    [done|].
  assert (remaining (Id:=Id)
            {| current_trajectory_ := (t, tr) :: rest;
               current_data_ := (k, v) :: cur |}
          = {| id := make_id t k; data := v |}
              :: remaining {| current_trajectory_ := (t, tr) :: rest;
                              current_data_ := cur |}) as -> by done.
  split; [done|].
  exists (advance_loop ((t, tr) :: rest) cur). by split.
Qed.

Lemma iterator_steps_witness :
  ∃ b it1, begin_ (after sparse_calls) = Return tt b
    ∧ deref b = Return {| id := MkNodeId 0 0; data := "a" |} b
    ∧ incr b = Return tt it1
    ∧ remaining it1 = [ {| id := MkNodeId 0 1; data := "b" |};
                        {| id := MkNodeId 2 0; data := "c" |} ].
Proof.
  destruct (iterator_steps (Id:=NodeId) (after sparse_calls))
    as ((b & Hb & Hpos & Hrem) & _ & Hstep).
  specialize (Hstep b Hpos). rewrite Hrem in Hstep.
  replace (listing (after sparse_calls))
    with [ {| id := MkNodeId 0 0; data := "a" |};
           {| id := MkNodeId 0 1; data := "b" |};
           {| id := MkNodeId 2 0; data := "c" |} ] in Hstep
    by (vm_compute; reflexivity).
  destruct Hstep as (Hderef & it1 & Hincr & _ & Hrem1).
  exists b, it1. repeat split; assumption.
Defined.

(** X13: iterators of one container.  [begin()], [end()] and every
    iterator that [operator++] returns from an iterator of the container
    are iterators of it, and two of them compare equal with [operator==]
    exactly when they have the same entries left to visit: both at the
    end, or both at the same entry. *)
Theorem iterator_equality {Id} `{IdType Id} {DataType}
    (m : MapById DataType) :
  (∀ b, begin_ m = Return tt b → iterator_of m b)
  ∧ (∀ e, end_ m = Return tt e → iterator_of m e)
  ∧ (∀ it it', iterator_of m it → incr it = Return tt it' →
               iterator_of m it')
  ∧ ∀ a b, iterator_of m a → iterator_of m b →
      (iter_eqb a b = true ↔ remaining (Id:=Id) a = remaining (Id:=Id) b).
Proof.
  split; [apply construct_iterator_of|].
  split; [apply EndIterator_iterator_of|].
  split; [apply incr_iterator_of|].
  apply iter_eqb_same_remaining.
Qed.

Lemma iterator_equality_witness :
  ∃ b it1, begin_ (after sparse_calls) = Return tt b
    ∧ incr b = Return tt it1
    ∧ iterator_of (after sparse_calls) it1
    ∧ iter_eqb it1 it1 = true
    ∧ iter_eqb b it1 = false.
Proof.
  destruct (iterator_equality (Id:=NodeId) (after sparse_calls))
    as (Hbegin & _ & Hincr & Heq).
  destruct (begin_ (after sparse_calls)) as [[] b| | |] eqn:Hb;
    try (vm_compute in Hb; discriminate).
  destruct (incr b) as [[] it1| | |] eqn:Hi.
  2-4: (vm_compute in Hb; injection Hb as <-; vm_compute in Hi; discriminate).
  pose proof (Hbegin b eq_refl) as Hib.
  pose proof (Hincr b it1 Hib Hi) as Hi1.
  exists b, it1. split; [reflexivity|]. split; [exact Hi|].
  split; [exact Hi1|]. split; [by apply (Heq it1 it1 Hi1 Hi1)|].
  vm_compute in Hb. injection Hb as <-.
  vm_compute in Hi. injection Hi as <-. vm_compute. reflexivity.
Defined.

(** * The identifiers as keys *)

(** X14: the operators of [NodeId].  [operator==] holds exactly for equal
    identifiers and [operator!=] exactly for different ones; [operator<]
    is the lexicographic order on (trajectory id, node index), a strict
    total order: irreflexive, asymmetric, transitive, and any two
    different identifiers are ordered one way. *)
Theorem NodeId_operators (a b c : NodeId) :
  (Node.eqb a b = true ↔ a = b)
  ∧ (Node.neqb a b = true ↔ a ≠ b)
  ∧ (Node.ltb a b = true
     ↔ trajectory_id a < trajectory_id b
       ∨ (trajectory_id a = trajectory_id b ∧ node_index a < node_index b))
  ∧ Node.ltb a a = false
  ∧ (Node.ltb a b = true → Node.ltb b a = false)
  ∧ (Node.ltb a b = true → Node.ltb b c = true → Node.ltb a c = true)
  ∧ (Node.ltb a b = true ∨ a = b ∨ Node.ltb b a = true).
Proof.
  pose proof (Node_eqb_eq a b) as Heq.
  split; [done|]. split.
  { unfold Node.neqb. rewrite negb_true_iff, <-not_true_iff_false, Heq. done. }
  split; [apply Node_ltb_lt|].
  split; [apply not_true_iff_false; rewrite Node_ltb_lt; apply id_lt_irrefl|].
  split.
  { rewrite <-not_true_iff_false, !Node_ltb_lt. intros ? ?.
    by eapply (id_lt_asym a b). }
  split.
  { rewrite !Node_ltb_lt. unfold id_lt. simpl. lia. }
  rewrite !Node_ltb_lt. unfold id_lt.
  destruct a as [ta ia], b as [tb ib]. simpl.
  destruct (decide (ta = tb)) as [->|]; [|lia].
  destruct (decide (ia = ib)) as [->|]; [by right; left | lia].
Qed.

(** X15: the operators of [SubmapId].  [operator==] holds exactly for
    equal identifiers and [operator!=] exactly for different ones;
    [operator<] is the lexicographic order on (trajectory id, submap
    index), a strict total order: irreflexive, asymmetric, transitive, and
    any two different identifiers are ordered one way. *)
Theorem SubmapId_operators (a b c : SubmapId) :
  (Submap.eqb a b = true ↔ a = b)
  ∧ (Submap.neqb a b = true ↔ a ≠ b)
  ∧ (Submap.ltb a b = true
     ↔ submap_trajectory_id a < submap_trajectory_id b
       ∨ (submap_trajectory_id a = submap_trajectory_id b
          ∧ submap_index a < submap_index b))
  ∧ Submap.ltb a a = false
  ∧ (Submap.ltb a b = true → Submap.ltb b a = false)
  ∧ (Submap.ltb a b = true → Submap.ltb b c = true → Submap.ltb a c = true)
  ∧ (Submap.ltb a b = true ∨ a = b ∨ Submap.ltb b a = true).
Proof.
  pose proof (Submap_eqb_eq a b) as Heq.
  split; [done|]. split.
  { unfold Submap.neqb. rewrite negb_true_iff, <-not_true_iff_false, Heq.
    done. }
  split; [apply Submap_ltb_lt|].
  split; [apply not_true_iff_false; rewrite Submap_ltb_lt; apply id_lt_irrefl|].
  split.
  { rewrite <-not_true_iff_false, !Submap_ltb_lt. intros ? ?.
    by eapply (id_lt_asym a b). }
  split.
  { rewrite !Submap_ltb_lt. unfold id_lt. simpl. lia. }
  rewrite !Submap_ltb_lt. unfold id_lt.
  destruct a as [ta ia], b as [tb ib]. simpl.
  destruct (decide (ta = tb)) as [->|]; [|lia].
  destruct (decide (ia = ib)) as [->|]; [by right; left | lia].
Qed.
